(** * SquareUp balance engine: [BalanceCalculator]

    A shallow embedding of [src/utils/balanceCalculator.ts] (given in
    [context/plans/base-plan.md], Task 5.3) together with the record types of
    [src/types/index.ts] it works on, the stores and the screens that use
    them, and the properties of the four static methods
    [calculateGroupBalances], [simplifyDebts], [splitEqually] and
    [validateCustomSplits].

    Numbers.  A TypeScript [number] is an IEEE 754 binary64 value, and the
    code is embedded twice.

    - [Module B64] embeds it over binary64 itself (the primitive floats of
      the Standard Library): [+], [-], [/] and the comparisons are the
      rounded operations, the literal [0.01] is the double nearest to 1/100,
      and NaN and the infinities are values like the others.  Every property
      that depends on the value of a number is stated there.

    - Outside [Module B64] a number is an exact rational ([Q]).  This
      embedding is used for the properties that do not depend on rounding:
      the shape and the order of the results, the names, the number of
      transactions, which objects are written, and the classification of a
      balance by comparisons.

    Objects.  [simplifyDebts] assigns to fields of the objects it was handed,
    so the [GroupBalance] objects live in a heap addressed by references and
    the argument array is a list of references; see [Module Heap]. *)

From Stdlib Require Import List String ZArith QArith Qround Qminmax Qabs.
From Stdlib Require Import Lia Lqa Permutation Sorted Bool.
From Stdlib Require Import Floats Uint63.
Import ListNotations.
Open Scope Q_scope.
Set Warnings "-inexact-float".

(** ** Record types ([src/types/index.ts]) *)

Record ExpenseSplit := mkSplit {
  split_userId : string;
  split_displayName : string;
  split_amount : Q;
  split_settled : bool
}.

(** The [Date] fields and the optional [imageUrl] are never read by the
    calculator and are left out. *)
Record Expense := mkExpense {
  exp_id : string;
  exp_groupId : string;
  exp_description : string;
  exp_amount : Q;
  exp_category : string;
  exp_paidBy : string;
  exp_paidByName : string;
  exp_createdBy : string;
  exp_splits : list ExpenseSplit
}.

Record GroupBalance := mkGroupBalance {
  gb_groupId : string;
  gb_userId : string;
  gb_displayName : string;
  totalPaid : Q;
  totalOwed : Q;
  balance : Q
}.

Record Balance := mkBalance {
  bal_userId : string;
  bal_displayName : string;
  amount : Q
}.

(** Field assignments [o.f = v] on a [GroupBalance]. *)
Definition set_totalPaid (b : GroupBalance) (v : Q) : GroupBalance :=
  mkGroupBalance (gb_groupId b) (gb_userId b) (gb_displayName b)
                 v (totalOwed b) (balance b).

Definition set_totalOwed (b : GroupBalance) (v : Q) : GroupBalance :=
  mkGroupBalance (gb_groupId b) (gb_userId b) (gb_displayName b)
                 (totalPaid b) v (balance b).

Definition set_balance (b : GroupBalance) (v : Q) : GroupBalance :=
  mkGroupBalance (gb_groupId b) (gb_userId b) (gb_displayName b)
                 (totalPaid b) (totalOwed b) v.

(** The literal [0.01]. *)
Definition cent : Q := 1 # 100.

(** [a < b] and [a > b] on numbers, as booleans. *)
Definition Qltb (a b : Q) : bool := negb (Qle_bool b a).

(** ** [Map<string, string>]: the display names *)

Definition NameMap := list (string * string).

Fixpoint names_get (names : NameMap) (k : string) : option string :=
  match names with
  | [] => None
  | (k', v) :: rest => if String.eqb k' k then Some v else names_get rest k
  end.

(** [memberNames.get(userId) || 'Unknown']: [undefined] and the empty string
    are both falsy. *)
Definition name_or_unknown (names : NameMap) (userId : string) : string :=
  match names_get names userId with
  | None => "Unknown"%string
  | Some EmptyString => "Unknown"%string
  | Some n => n
  end.

(** ** [Map<string, GroupBalance>]: keys in insertion order *)

Definition BalMap := list (string * GroupBalance).

Fixpoint map_get (m : BalMap) (k : string) : option GroupBalance :=
  match m with
  | [] => None
  | (k', v) :: rest => if String.eqb k' k then Some v else map_get rest k
  end.

(** [m.set(k, v)]: an existing key keeps its position, a new one goes last. *)
Fixpoint map_set (k : string) (v : GroupBalance) (m : BalMap) : BalMap :=
  match m with
  | [] => [(k, v)]
  | (k', v') :: rest =>
      if String.eqb k' k then (k', v) :: rest
      else (k', v') :: map_set k v rest
  end.

(** [const o = m.get(k); if (o) { o.f = ... }]: the object stored under [k]
    is changed in place; nothing happens when [k] is absent. *)
Fixpoint map_update (k : string) (f : GroupBalance -> GroupBalance)
         (m : BalMap) : BalMap :=
  match m with
  | [] => []
  | (k', v) :: rest =>
      if String.eqb k' k then (k', f v) :: rest
      else (k', v) :: map_update k f rest
  end.

Definition map_keys (m : BalMap) : list string := map fst m.
Definition map_values (m : BalMap) : list GroupBalance := map snd m.

(** ** [calculateGroupBalances] *)

(** [expenses[0]?.groupId || ''] *)
Definition first_groupId (expenses : list Expense) : string :=
  match expenses with
  | [] => EmptyString
  | e :: _ => exp_groupId e
  end.

Definition init_entry (expenses : list Expense) (names : NameMap)
           (userId : string) : GroupBalance :=
  mkGroupBalance (first_groupId expenses) userId
                 (name_or_unknown names userId) 0 0 0.

Definition init_balances (expenses : list Expense) (memberIds : list string)
           (names : NameMap) : BalMap :=
  fold_left (fun m userId => map_set userId (init_entry expenses names userId) m)
            memberIds [].

Definition add_paid (a : Q) (b : GroupBalance) : GroupBalance :=
  set_totalPaid b (totalPaid b + a).

Definition add_owed (a : Q) (b : GroupBalance) : GroupBalance :=
  set_totalOwed b (totalOwed b + a).

Definition add_split (m : BalMap) (s : ExpenseSplit) : BalMap :=
  if split_settled s then m
  else map_update (split_userId s) (add_owed (split_amount s)) m.

Definition add_expense (m : BalMap) (e : Expense) : BalMap :=
  fold_left add_split (exp_splits e)
            (map_update (exp_paidBy e) (add_paid (exp_amount e)) m).

Definition net (b : GroupBalance) : GroupBalance :=
  set_balance b (totalPaid b - totalOwed b).

Definition calculateGroupBalances (expenses : list Expense)
           (memberIds : list string) (names : NameMap) : list GroupBalance :=
  map net (map_values
             (fold_left add_expense expenses
                        (init_balances expenses memberIds names))).

(** ** [splitEqually] *)

(** [Number(x.toFixed(2))]: the multiple of 1/100 nearest to [x]; of two
    equally near ones the one of larger magnitude ([toFixed] rounds the
    absolute value and puts the sign back). *)
Definition round_half_up (y : Q) : Z := Qfloor (y * 100 + (1 # 2)).

Definition toFixed2 (x : Q) : Q :=
  if Qltb x 0 then - (round_half_up (- x) # 100)
  else round_half_up x # 100.

(** [amount / memberIds.length] is computed before the [map]; with an empty
    list JavaScript yields [Infinity] or [NaN] there without throwing, and
    the value is never used since the [map] callback runs zero times.  ([Q]
    returns 0 for a division by 0.) *)
Definition splitEqually (amt : Q) (memberIds : list string) (names : NameMap)
  : list ExpenseSplit :=
  let splitAmount := amt / inject_Z (Z.of_nat (List.length memberIds)) in
  map (fun userId =>
         mkSplit userId (name_or_unknown names userId)
                 (toFixed2 splitAmount) false)
      memberIds.

(** How a call completes: by returning a value or by throwing. *)
Inductive completion (A : Type) : Type :=
| Normal (a : A)
| Throw (message : string).
Arguments Normal {A} a.
Arguments Throw {A} message.

(** A call of [splitEqually]: the body has no [throw] and none of its
    operations throws on a [number], a [string[]] and a [Map], so the call
    always completes normally. *)
Definition splitEqually_call (amt : Q) (memberIds : list string)
           (names : NameMap) : completion (list ExpenseSplit) :=
  Normal (splitEqually amt memberIds names).

(** ** The heap of [GroupBalance] objects *)

Module Heap.

(** An object reference; two array slots holding the same reference hold
    the same object. *)
Definition ref := nat.

Definition t := ref -> GroupBalance.

(** [o.balance -= a] on the object behind [r]. *)
Definition sub_balance (h : t) (r : ref) (a : Q) : t :=
  fun r' => if Nat.eqb r' r then set_balance (h r) (balance (h r) - a)
            else h r'.

Definition empty_object : GroupBalance :=
  mkGroupBalance EmptyString EmptyString EmptyString 0 0 0.

(** A heap holding the records of [l] as pairwise distinct objects, the
    [n]-th one behind reference [n]. *)
Definition alloc (l : list GroupBalance) : t :=
  fun r => nth r l empty_object.

Definition refs_of (l : list GroupBalance) : list ref :=
  seq 0 (List.length l).

End Heap.

(** ** [simplifyDebts] *)

(** [xs.sort((a, b) => key(b) - key(a))]: descending by [key];
    [Array.prototype.sort] is stable. *)
Section Sort.
Context {A : Type} (key : A -> Q).

Fixpoint insert_desc (x : A) (l : list A) : list A :=
  match l with
  | [] => [x]
  | y :: rest =>
      if Qle_bool (key y) (key x) then x :: y :: rest
      else y :: insert_desc x rest
  end.

Definition sort_desc (l : list A) : list A :=
  fold_right insert_desc [] l.
End Sort.

(** [groupBalances.filter((b) => b.balance > 0.01).sort(...)]: [filter]
    copies the array, not the objects in it. *)
Definition creditors_of (h : Heap.t) (groupBalances : list Heap.ref)
  : list Heap.ref :=
  sort_desc (fun r => balance (h r))
            (filter (fun r => Qltb cent (balance (h r))) groupBalances).

(** [groupBalances.filter((b) => b.balance < -0.01)
      .map((b) => ({ ...b, balance: -b.balance })).sort(...)]: the spread
    makes a new object for every debtor. *)
Definition debtors_of (h : Heap.t) (groupBalances : list Heap.ref)
  : list GroupBalance :=
  sort_desc balance
            (map (fun r => set_balance (h r) (- balance (h r)))
                 (filter (fun r => Qltb (balance (h r)) (- cent))
                         groupBalances)).

Definition owes (debtor creditor : GroupBalance) (a : Q) : Balance :=
  mkBalance (gb_userId debtor)
            (gb_displayName debtor ++ " owes " ++ gb_displayName creditor)
            a.

(** The state of the [while] loop: [creditors_rest] is [creditors.slice(i)],
    [debtors_rest] is [debtors.slice(j)]. *)
Record LoopState := mkLoopState {
  transactions : list Balance;
  heap : Heap.t;
  creditors_rest : list Heap.ref;
  debtors_rest : list GroupBalance
}.

(** The [while] loop, one iteration per unit of [fuel]; [None] when the fuel
    runs out before the loop condition fails. *)
Fixpoint settle_loop (fuel : nat) (h : Heap.t) (cs : list Heap.ref)
         (ds : list GroupBalance) (txs : list Balance) : option LoopState :=
  match cs, ds with
  | c :: cs', debtor :: ds' =>
      match fuel with
      | O => None
      | S fuel' =>
          let creditor := h c in
          let a := Qmin (balance creditor) (balance debtor) in
          let txs' := txs ++ [owes debtor creditor a] in
          let h' := Heap.sub_balance h c a in
          let debtor' := set_balance debtor (balance debtor - a) in
          let cs1 := if Qltb (balance (h' c)) cent then cs' else cs in
          let ds1 := if Qltb (balance debtor') cent then ds'
                     else debtor' :: ds' in
          settle_loop fuel' h' cs1 ds1 txs'
      end
  | _, _ => Some (mkLoopState txs h cs ds)
  end.

(** Every iteration moves [i] or [j] (see [one_side_settled] and [greedy_total]), so
    [creditors.length + debtors.length] iterations are enough. *)
Definition simplifyDebts_run (h : Heap.t) (groupBalances : list Heap.ref)
  : option LoopState :=
  let creditors := creditors_of h groupBalances in
  let debtors := debtors_of h groupBalances in
  settle_loop (List.length creditors + List.length debtors)
              h creditors debtors [].

(** [simplifyDebts] as a heap operation: the returned transactions and the
    heap it leaves behind. *)
Definition simplifyDebts_heap (h : Heap.t) (groupBalances : list Heap.ref)
  : option (list Balance * Heap.t) :=
  option_map (fun s => (transactions s, heap s))
             (simplifyDebts_run h groupBalances).

(** [simplifyDebts] on an array of pairwise distinct objects holding the
    records of [l], as [calculateGroupBalances] builds it. *)
Definition simplifyDebts (l : list GroupBalance) : option (list Balance) :=
  option_map transactions
             (simplifyDebts_run (Heap.alloc l) (Heap.refs_of l)).

(** The creditor and debtor pools of the claims, as record lists. *)
Definition creditors (l : list GroupBalance) : list GroupBalance :=
  filter (fun b => Qltb cent (balance b)) l.

Definition debtors (l : list GroupBalance) : list GroupBalance :=
  filter (fun b => Qltb (balance b) (- cent)) l.

(** ** The loop on records

    The same loop with the creditors held by value, as it runs when the
    creditor objects are pairwise distinct ([settle_loop_greedy]). *)
Fixpoint greedy (fuel : nat) (cs ds : list GroupBalance) (txs : list Balance)
  : option (list Balance * list GroupBalance * list GroupBalance) :=
  match cs, ds with
  | creditor :: cs', debtor :: ds' =>
      match fuel with
      | O => None
      | S fuel' =>
          let a := Qmin (balance creditor) (balance debtor) in
          let creditor' := set_balance creditor (balance creditor - a) in
          let debtor' := set_balance debtor (balance debtor - a) in
          greedy fuel'
                 (if Qltb (balance creditor') cent then cs'
                  else creditor' :: cs')
                 (if Qltb (balance debtor') cent then ds'
                  else debtor' :: ds')
                 (txs ++ [owes debtor creditor a])
      end
  | _, _ => Some (txs, cs, ds)
  end.

Definition view (s : LoopState)
  : list Balance * list GroupBalance * list GroupBalance :=
  (transactions s, map (heap s) (creditors_rest s), debtors_rest s).

Definition negate (b : GroupBalance) : GroupBalance :=
  set_balance b (- balance b).

(** ** Vocabulary of the properties *)

(** Membership in the roster, as a test. *)
Definition mem (k : string) (l : list string) : bool :=
  existsb (String.eqb k) l.

(** The members of a roster in the order of their first occurrence. *)
Fixpoint first_occurrences (l : list string) : list string :=
  match l with
  | [] => []
  | x :: rest =>
      x :: filter (fun y => negb (String.eqb y x)) (first_occurrences rest)
  end.

Definition at_least_cent (b : GroupBalance) : Prop := cent <= balance b.

(** ** Scenarios *)

Definition gb (u : string) (b : Q) : GroupBalance :=
  mkGroupBalance "g" u u 0 0 b.

(** Scenario A: A is owed 50, B owes 50. *)
Definition scenario_A : list GroupBalance := [gb "A" 50; gb "B" (- 50)].

(** Scenario B: A is owed 60, B and C owe 30 each. *)
Definition scenario_B : list GroupBalance :=
  [gb "A" 60; gb "B" (- 30); gb "C" (- 30)].

(** One expense of 100 paid by A, who is not in the roster [B]; the single
    split charges B with the 100. *)
Definition expense_outside_payer : Expense :=
  mkExpense "1" "g" "Dinner" 100 "food" "A" "Alice" "A"
            [mkSplit "B" "Bob" 100 false].

(** An expense of 20 paid by B and charged to A. *)
Definition expense_taxi : Expense :=
  mkExpense "2" "g" "Taxi" 20 "transport" "B" "Bob" "B"
            [mkSplit "A" "Alice" 20 false].

(** ** [Map<string, V>] of the stores *)

Definition StrMap (V : Type) : Type := list (string * V).

Fixpoint smap_get {V : Type} (m : StrMap V) (k : string) : option V :=
  match m with
  | [] => None
  | (k', v) :: rest => if String.eqb k' k then Some v else smap_get rest k
  end.

Fixpoint smap_set {V : Type} (k : string) (v : V) (m : StrMap V) : StrMap V :=
  match m with
  | [] => [(k, v)]
  | (k', v') :: rest =>
      if String.eqb k' k then (k', v) :: rest
      else (k', v') :: smap_set k v rest
  end.

(** ** [src/store/expensesStore.ts] *)

(** [Partial<Expense>]: the fields an update carries. *)
Record ExpenseUpdates := mkUpdates {
  upd_id : option string;
  upd_groupId : option string;
  upd_description : option string;
  upd_amount : option Q;
  upd_category : option string;
  upd_paidBy : option string;
  upd_paidByName : option string;
  upd_createdBy : option string;
  upd_splits : option (list ExpenseSplit)
}.

Definition override {A : Type} (old : A) (new : option A) : A :=
  match new with
  | Some v => v
  | None => old
  end.

(** [{ ...exp, ...updates }] *)
Definition apply_updates (exp : Expense) (u : ExpenseUpdates) : Expense :=
  mkExpense (override (exp_id exp) (upd_id u))
            (override (exp_groupId exp) (upd_groupId u))
            (override (exp_description exp) (upd_description u))
            (override (exp_amount exp) (upd_amount u))
            (override (exp_category exp) (upd_category u))
            (override (exp_paidBy exp) (upd_paidBy u))
            (override (exp_paidByName exp) (upd_paidByName u))
            (override (exp_createdBy exp) (upd_createdBy u))
            (override (exp_splits exp) (upd_splits u)).

Module ExpensesStore.

Record State := mkState {
  expenses : StrMap (list Expense);
  isLoading : bool;
  error : option string
}.

Definition initial : State := mkState [] false None.

(** [m.get(groupId) || []]: an array, even an empty one, is truthy. *)
Definition group_or_empty (m : StrMap (list Expense)) (groupId : string)
  : list Expense :=
  match smap_get m groupId with
  | Some l => l
  | None => []
  end.

Definition setExpenses (groupId : string) (l : list Expense) (st : State)
  : State :=
  mkState (smap_set groupId l (expenses st)) (isLoading st) (error st).

Definition addExpense (groupId : string) (expense : Expense) (st : State)
  : State :=
  mkState (smap_set groupId
                    (expense :: group_or_empty (expenses st) groupId)
                    (expenses st))
          (isLoading st) (error st).

Definition updateExpense (groupId expenseId : string) (updates : ExpenseUpdates)
           (st : State) : State :=
  mkState (smap_set groupId
                    (map (fun exp =>
                            if String.eqb (exp_id exp) expenseId
                            then apply_updates exp updates else exp)
                         (group_or_empty (expenses st) groupId))
                    (expenses st))
          (isLoading st) (error st).

Definition removeExpense (groupId expenseId : string) (st : State) : State :=
  mkState (smap_set groupId
                    (filter (fun exp => negb (String.eqb (exp_id exp) expenseId))
                            (group_or_empty (expenses st) groupId))
                    (expenses st))
          (isLoading st) (error st).

Definition getGroupExpenses (groupId : string) (st : State) : list Expense :=
  group_or_empty (expenses st) groupId.

Definition setLoading (loading : bool) (st : State) : State :=
  mkState (expenses st) loading (error st).

Definition setError (e : option string) (st : State) : State :=
  mkState (expenses st) (isLoading st) e.

End ExpensesStore.

(** ** [AddExpenseScreen]: the member selection *)

(** [handleToggleMember]: the next value of [selectedMembers]. *)
Definition handleToggleMember (selectedMembers : list string)
           (userId : string) : list string :=
  if mem userId selectedMembers
  then filter (fun id => negb (String.eqb id userId)) selectedMembers
  else selectedMembers ++ [userId].

(** ** [BalanceItem] and [BalancesScreen] *)

Definition isPositive (b : GroupBalance) : bool := Qltb cent (balance b).
Definition isNegative (b : GroupBalance) : bool := Qltb (balance b) (- cent).
Definition isSettled (b : GroupBalance) : bool :=
  Qltb (Qabs (balance b)) cent.

(** What [BalanceItem] shows under the name: [None] when it renders nothing
    ([return null]). *)
Definition balanceItem_description (b : GroupBalance) : option string :=
  if isSettled b then None
  else Some (if isPositive b then "owes you"%string
             else if isNegative b then "you owe"%string
                  else EmptyString).

(** Whether [BalanceItem] shows its "Settle" button: the item is rendered
    and [isNegative] holds. *)
Definition balanceItem_settle_button (b : GroupBalance) : bool :=
  negb (isSettled b) && isNegative b.

(** [b.userId === user?.id]: no entry matches when there is no user. *)
Definition is_user (userId : option string) (b : GroupBalance) : bool :=
  match userId with
  | Some u => String.eqb (gb_userId b) u
  | None => false
  end.

Definition youOwe (balances : list GroupBalance) (userId : option string)
  : list GroupBalance :=
  filter (fun b => negb (is_user userId b) && Qltb cent (balance b)) balances.

Definition owesYou (balances : list GroupBalance) (userId : option string)
  : list GroupBalance :=
  filter (fun b => negb (is_user userId b) && Qltb (balance b) (- cent))
         balances.

(** ** [src/utils/errorHandler.ts] *)

(** The two properties of the error object that are read. *)
Record FirebaseError := mkError {
  err_code : option string;
  err_message : option string
}.

(** [error.message || 'An error occurred'] *)
Definition message_or_default (error : FirebaseError) : string :=
  match err_message error with
  | None => "An error occurred"%string
  | Some EmptyString => "An error occurred"%string
  | Some m => m
  end.

Definition handleFirebaseError (error : FirebaseError) : string :=
  match err_code error with
  | None => message_or_default error
  | Some code =>
      if String.eqb code "auth/user-not-found"
      then "No user found with this email"%string
      else if String.eqb code "auth/wrong-password"
      then "Incorrect password"%string
      else if String.eqb code "auth/email-already-in-use"
      then "Email already in use"%string
      else if String.eqb code "auth/weak-password"
      then "Password should be at least 6 characters"%string
      else if String.eqb code "auth/invalid-email"
      then "Invalid email address"%string
      else if String.eqb code "auth/network-request-failed"
      then "Network error. Please check your connection"%string
      else message_or_default error
  end.

(** ** [src/store/authStore.ts] and [src/store/userStore.ts] *)

(** [createdAt] is never read by the stores and is left out. *)
Record User := mkUser {
  user_id : string;
  user_email : string;
  user_displayName : string;
  user_photoURL : option string
}.

Module AuthStore.

Record State := mkState {
  user : option User;
  isAuthenticated : bool;
  isLoading : bool;
  error : option string;
  verificationId : option string
}.

Definition initial : State := mkState None false true None None.

(** [!!user] *)
Definition truthy (u : option User) : bool :=
  match u with
  | Some _ => true
  | None => false
  end.

Definition setUser (u : option User) (st : State) : State :=
  mkState u (truthy u) false None (verificationId st).

Definition setLoading (loading : bool) (st : State) : State :=
  mkState (user st) (isAuthenticated st) loading (error st)
          (verificationId st).

Definition setError (e : option string) (st : State) : State :=
  mkState (user st) (isAuthenticated st) false e (verificationId st).

Definition setVerificationId (id : option string) (st : State) : State :=
  mkState (user st) (isAuthenticated st) (isLoading st) (error st) id.

Definition logout (st : State) : State :=
  mkState None false (isLoading st) None None.

Definition clearError (st : State) : State :=
  mkState (user st) (isAuthenticated st) (isLoading st) None
          (verificationId st).

(** The [persist] middleware.  [partialize] keeps [user] alone, so what is
    stored is the [user] of the state; on start the stored value, if there
    is one, is merged over the initial state ([{ ...current, ...stored }]),
    which sets [user] and nothing else. *)
Definition stored (st : State) : option User := user st.

Definition rehydrate (storage : option (option User)) (st : State) : State :=
  match storage with
  | Some u => mkState u (isAuthenticated st) (isLoading st) (error st)
                      (verificationId st)
  | None => st
  end.

(** The actions of the store, and a run of them from a given state. *)
Inductive Action : Type :=
| SetUser (u : option User)
| SetLoading (loading : bool)
| SetError (e : option string)
| SetVerificationId (id : option string)
| Logout
| ClearError.

Definition act (st : State) (a : Action) : State :=
  match a with
  | SetUser u => setUser u st
  | SetLoading l => setLoading l st
  | SetError e => setError e st
  | SetVerificationId id => setVerificationId id st
  | Logout => logout st
  | ClearError => clearError st
  end.

Definition run_from (st : State) (actions : list Action) : State :=
  fold_left act actions st.

(** A session: the store is created, rehydrated from the storage, and the
    actions run. *)
Definition session (storage : option (option User)) (actions : list Action)
  : State :=
  run_from (rehydrate storage initial) actions.

(** [isAuthenticated] says whether there is a user. *)
Definition consistent (st : State) : Prop :=
  isAuthenticated st = truthy (user st).

(** No [setUser] and no [logout] among the actions. *)
Definition keeps_user (a : Action) : bool :=
  match a with
  | SetUser _ | Logout => false
  | _ => true
  end.

End AuthStore.

Module UserStore.

Definition State := StrMap User.

Definition initial : State := [].

Definition addUser (u : User) (st : State) : State :=
  smap_set (user_id u) u st.

Definition addUsers (us : list User) (st : State) : State :=
  fold_left (fun m u => smap_set (user_id u) u m) us st.

Definition getUser (userId : string) (st : State) : option User :=
  smap_get st userId.

End UserStore.

(** ** Parties of a transaction *)

(** [b] is a record of [pool], up to its [balance]. *)
Definition from_pool (pool : list GroupBalance) (b : GroupBalance) : Prop :=
  exists b0, In b0 pool
             /\ gb_userId b = gb_userId b0
             /\ gb_displayName b = gb_displayName b0.

(** [t] reads "<a debtor of ds> owes <a creditor of cs>". *)
Definition pairs_of (cs ds : list GroupBalance) (t : Balance) : Prop :=
  exists d c, In d ds /\ In c cs
              /\ bal_userId t = gb_userId d
              /\ bal_displayName t
                 = (gb_displayName d ++ " owes " ++ gb_displayName c)%string.

(** * The code over binary64 *)

Module B64.

(** The literal [0.01]: the binary64 value nearest to 1/100. *)
Definition cent : float := 0.01%float.

(** [Math.min(a, b)]: NaN when either argument is NaN, and -0 below +0. *)
Definition fmin (a b : float) : float :=
  if (is_nan a || is_nan b)%bool then nan
  else if (a <? b)%float then a
  else if (b <? a)%float then b
  else match classify a with
       | NZero => a
       | _ => b
       end.

(** The exact value of a finite binary64 number (0 for the others). *)
Definition exact (x : float) : Q :=
  match Prim2SF x with
  | S754_finite s m e =>
      let v := match e with
               | Zpos p => inject_Z (Z.pos m * 2 ^ Zpos p)
               | Z0 => inject_Z (Z.pos m)
               | Zneg p => Z.pos m # (2 ^ p)
               end in
      if s then Qopp v else v
  | _ => 0%Q
  end.

(** The number of cents nearest to the magnitude of [x], the larger one of
    two equally near ([toFixed]: "let n be an integer for which n / 10^f - x
    is as close to zero as possible; if there are two such n, pick the
    larger n"). *)
Definition cents (x : float) : Z :=
  Qfloor (Qabs (exact x) * 100 + (1 # 2))%Q.

(** [Number(x.toFixed(2))]: [toFixed] writes the sign and the decimal digits
    of [cents x] / 100, and [Number] reads them back as the nearest binary64
    value, which is the correctly rounded quotient of the two integers.
    (From 1e21 on [toFixed] writes the number itself; there the quotient
    rounds back to [x].) *)
Definition toFixed2 (x : float) : float :=
  match Prim2SF x with
  | S754_nan => nan
  | S754_infinity _ => x
  | S754_zero _ => 0%float
  | S754_finite s _ _ =>
      match cents x with
      | Zpos n =>
          SF2Prim (SFdiv prec emax (S754_finite s n 0)
                         (S754_finite false 100 0))
      | _ => if s then (- 0)%float else 0%float
      end
  end.

(** An array length as a number. *)
Definition of_nat (n : nat) : float :=
  PrimFloat.of_uint63 (Uint63.of_Z (Z.of_nat n)).

(** [xs.reduce((sum, x) => sum + x, 0)]: the sum from left to right. *)
Definition fsum (l : list float) : float :=
  fold_left PrimFloat.add l 0%float.

Record ExpenseSplit := mkSplit {
  split_userId : string;
  split_displayName : string;
  split_amount : float;
  split_settled : bool
}.

Record Expense := mkExpense {
  exp_id : string;
  exp_groupId : string;
  exp_description : string;
  exp_amount : float;
  exp_category : string;
  exp_paidBy : string;
  exp_paidByName : string;
  exp_createdBy : string;
  exp_splits : list ExpenseSplit
}.

Record GroupBalance := mkGroupBalance {
  gb_groupId : string;
  gb_userId : string;
  gb_displayName : string;
  totalPaid : float;
  totalOwed : float;
  balance : float
}.

Record Balance := mkBalance {
  bal_userId : string;
  bal_displayName : string;
  amount : float
}.

Definition set_totalPaid (b : GroupBalance) (v : float) : GroupBalance :=
  mkGroupBalance (gb_groupId b) (gb_userId b) (gb_displayName b)
                 v (totalOwed b) (balance b).

Definition set_totalOwed (b : GroupBalance) (v : float) : GroupBalance :=
  mkGroupBalance (gb_groupId b) (gb_userId b) (gb_displayName b)
                 (totalPaid b) v (balance b).

Definition set_balance (b : GroupBalance) (v : float) : GroupBalance :=
  mkGroupBalance (gb_groupId b) (gb_userId b) (gb_displayName b)
                 (totalPaid b) (totalOwed b) v.

(** *** [calculateGroupBalances] *)

(** [const o = m.get(k); if (o) { o.f = ... }] *)
Fixpoint smap_update {V : Type} (k : string) (f : V -> V) (m : StrMap V)
  : StrMap V :=
  match m with
  | [] => []
  | (k', v) :: rest =>
      if String.eqb k' k then (k', f v) :: rest
      else (k', v) :: smap_update k f rest
  end.

Definition first_groupId (expenses : list Expense) : string :=
  match expenses with
  | [] => EmptyString
  | e :: _ => exp_groupId e
  end.

Definition init_entry (expenses : list Expense) (names : NameMap)
           (userId : string) : GroupBalance :=
  mkGroupBalance (first_groupId expenses) userId
                 (name_or_unknown names userId) 0 0 0.

Definition init_balances (expenses : list Expense) (memberIds : list string)
           (names : NameMap) : StrMap GroupBalance :=
  fold_left (fun m userId =>
               smap_set userId (init_entry expenses names userId) m)
            memberIds [].

(** [payer.totalPaid += expense.amount] *)
Definition add_paid (a : float) (b : GroupBalance) : GroupBalance :=
  set_totalPaid b (totalPaid b + a)%float.

(** [member.totalOwed += split.amount] *)
Definition add_owed (a : float) (b : GroupBalance) : GroupBalance :=
  set_totalOwed b (totalOwed b + a)%float.

Definition add_split (m : StrMap GroupBalance) (s : ExpenseSplit)
  : StrMap GroupBalance :=
  if split_settled s then m
  else smap_update (split_userId s) (add_owed (split_amount s)) m.

Definition add_expense (m : StrMap GroupBalance) (e : Expense)
  : StrMap GroupBalance :=
  fold_left add_split (exp_splits e)
            (smap_update (exp_paidBy e) (add_paid (exp_amount e)) m).

Definition net (b : GroupBalance) : GroupBalance :=
  set_balance b (totalPaid b - totalOwed b)%float.

Definition calculateGroupBalances (expenses : list Expense)
           (memberIds : list string) (names : NameMap) : list GroupBalance :=
  map net (map snd (fold_left add_expense expenses
                              (init_balances expenses memberIds names))).

(** *** [splitEqually] and [validateCustomSplits] *)

Definition splitEqually (amt : float) (memberIds : list string)
           (names : NameMap) : list ExpenseSplit :=
  let splitAmount := (amt / of_nat (List.length memberIds))%float in
  map (fun userId =>
         mkSplit userId (name_or_unknown names userId)
                 (toFixed2 splitAmount) false)
      memberIds.

Definition splits_total (splits : list ExpenseSplit) : float :=
  fold_left (fun sum split => (sum + split_amount split)%float) splits 0%float.

Definition validateCustomSplits (amt : float) (splits : list ExpenseSplit)
  : bool :=
  (abs (splits_total splits - amt) <? cent)%float.

(** *** [simplifyDebts] *)

Definition Heap := nat -> GroupBalance.

Definition sub_balance (h : Heap) (r : nat) (a : float) : Heap :=
  fun r' => if Nat.eqb r' r then set_balance (h r) (balance (h r) - a)%float
            else h r'.

Definition empty_object : GroupBalance :=
  mkGroupBalance EmptyString EmptyString EmptyString 0 0 0.

Definition alloc (l : list GroupBalance) : Heap :=
  fun r => nth r l empty_object.

Definition refs_of (l : list GroupBalance) : list nat :=
  seq 0 (List.length l).

(** [xs.sort((a, b) => key(b) - key(a))]: in a stable sort an element stays
    in front of a later one unless the comparator puts the later one
    strictly first, that is unless [key(x) - key(y) < 0]. *)
Fixpoint insert_desc {A : Type} (key : A -> float) (x : A) (l : list A)
  : list A :=
  match l with
  | [] => [x]
  | y :: rest =>
      if (key x - key y <? 0)%float then y :: insert_desc key x rest
      else x :: y :: rest
  end.

Definition sort_desc {A : Type} (key : A -> float) (l : list A) : list A :=
  fold_right (insert_desc key) [] l.

Definition creditors_of (h : Heap) (groupBalances : list nat) : list nat :=
  sort_desc (fun r => balance (h r))
            (filter (fun r => (cent <? balance (h r))%float) groupBalances).

Definition debtors_of (h : Heap) (groupBalances : list nat)
  : list GroupBalance :=
  sort_desc balance
            (map (fun r => set_balance (h r) (- balance (h r))%float)
                 (filter (fun r => (balance (h r) <? - cent)%float)
                         groupBalances)).

Definition owes (debtor creditor : GroupBalance) (a : float) : Balance :=
  mkBalance (gb_userId debtor)
            (gb_displayName debtor ++ " owes " ++ gb_displayName creditor)
            a.

Record LoopState := mkLoopState {
  transactions : list Balance;
  heap : Heap;
  creditors_rest : list nat;
  debtors_rest : list GroupBalance
}.

(** The [while] loop, one iteration per unit of [fuel]; [None] when the fuel
    runs out before the loop condition fails. *)
Fixpoint settle_loop (fuel : nat) (h : Heap) (cs : list nat)
         (ds : list GroupBalance) (txs : list Balance) : option LoopState :=
  match cs, ds with
  | c :: cs', debtor :: ds' =>
      match fuel with
      | O => None
      | S fuel' =>
          let creditor := h c in
          let a := fmin (balance creditor) (balance debtor) in
          let txs' := txs ++ [owes debtor creditor a] in
          let h' := sub_balance h c a in
          let debtor' := set_balance debtor (balance debtor - a)%float in
          let cs1 := if (balance (h' c) <? cent)%float then cs' else cs in
          let ds1 := if (balance debtor' <? cent)%float then ds'
                     else debtor' :: ds' in
          settle_loop fuel' h' cs1 ds1 txs'
      end
  | _, _ => Some (mkLoopState txs h cs ds)
  end.

Definition simplifyDebts_run (h : Heap) (groupBalances : list nat)
  : option LoopState :=
  let creditors := creditors_of h groupBalances in
  let debtors := debtors_of h groupBalances in
  settle_loop (List.length creditors + List.length debtors)
              h creditors debtors [].

(** *** Vocabulary of the properties *)

(** The amounts of the expenses paid by [u], in expense order. *)
Definition paid_amounts (u : string) (expenses : list Expense) : list float :=
  map exp_amount (filter (fun e => String.eqb (exp_paidBy e) u) expenses).

(** The unsettled splits of [u], in expense and split order, and their
    amounts. *)
Definition open_split_of (u : string) (s : ExpenseSplit) : bool :=
  negb (split_settled s) && String.eqb (split_userId s) u.

Definition owed_amounts (u : string) (expenses : list Expense) : list float :=
  map split_amount
      (filter (open_split_of u) (flat_map exp_splits expenses)).

(** [totalOwed += a] for each [a] of [l], in order. *)
Definition owe_all (l : list float) (b : GroupBalance)
  : GroupBalance :=
  fold_left (fun b a => add_owed a b) l b.

(** What one expense does to the entry of [u]. *)
Definition account_expense (u : string) (b : GroupBalance)
           (e : Expense) : GroupBalance :=
  owe_all (map split_amount
               (filter (open_split_of u) (exp_splits e)))
          (if String.eqb (exp_paidBy e) u
           then add_paid (exp_amount e) b else b).

Definition account (u : string) (es : list Expense)
           (b : GroupBalance) : GroupBalance :=
  fold_left (account_expense u) es b.

(** The entry of the member [u]: its sums, from the expenses. *)
Definition entry_of (expenses : list Expense) (names : NameMap) (u : string)
  : GroupBalance :=
  let p := fsum (paid_amounts u expenses) in
  let o := fsum (owed_amounts u expenses) in
  mkGroupBalance (first_groupId expenses) u (name_or_unknown names u)
                 p o (p - o)%float.

(** [{ ...split, settled: true }] *)
Definition settle (s : ExpenseSplit) : ExpenseSplit :=
  mkSplit (split_userId s) (split_displayName s) (split_amount s) true.

(** [{ ...expense, splits }] *)
Definition with_splits (e : Expense) (splits : list ExpenseSplit) : Expense :=
  mkExpense (exp_id e) (exp_groupId e) (exp_description e) (exp_amount e)
            (exp_category e) (exp_paidBy e) (exp_paidByName e)
            (exp_createdBy e) splits.

(** The amounts of the transactions that carry the [userId] [u], in the
    order of the transactions. *)
Definition amounts_of (u : string) (txs : list Balance) : list float :=
  map amount (filter (fun t => String.eqb (bal_userId t) u) txs).

(** What is left of [debt] after the payments [amts] are subtracted from it
    one after the other. *)
Definition after_payments (debt : float) (amts : list float) : float :=
  fold_left PrimFloat.sub amts debt.

(** The entry of [u] in a queue of debtors. *)
Definition debtor_entry (u : string) (ds : list GroupBalance)
  : option GroupBalance :=
  find (fun d => String.eqb (gb_userId d) u) ds.

(** *** [AddExpenseScreen.handleSubmit]: the checks *)

(** What [handleSubmit] does before it talks to the expenses service: it
    shows an alert and returns, or it goes on with the splits of the new
    expense. *)
Inductive SubmitChecks : Type :=
| Alerted (message : string)
| Splits (numAmount : float) (splits : list ExpenseSplit).

(** The checks of [handleSubmit], on [description.trim()], on
    [parseFloat(amount)] and on [selectedMembers]. *)
Definition handleSubmit_checks (trimmedDescription : string)
           (numAmount : float) (selectedMembers : list string)
           (memberNames : NameMap) : SubmitChecks :=
  match trimmedDescription with
  | EmptyString => Alerted "Please enter a description"
  | _ =>
      if (is_nan numAmount || (numAmount <=? 0)%float)%bool
      then Alerted "Please enter a valid amount"
      else if Nat.eqb (List.length selectedMembers) 0
           then Alerted "Please select at least one member"
           else Splits numAmount
                       (splitEqually numAmount selectedMembers memberNames)
  end.

(** *** [BalancesScreen.getTotalBalance] *)

(** [b.userId === user?.id]: no entry matches when there is no user. *)
Definition is_user (userId : option string) (b : GroupBalance) : bool :=
  match userId with
  | Some u => String.eqb (gb_userId b) u
  | None => false
  end.

(** [x || 0]: the falsy numbers are NaN and the two zeros. *)
Definition or_zero (x : float) : float :=
  if (is_nan x || PrimFloat.is_zero x)%bool then 0%float else x.

(** [balances.find(...)?.balance || 0] *)
Definition getTotalBalance (balances : list GroupBalance)
           (userId : option string) : float :=
  match find (is_user userId) balances with
  | Some b => or_zero (balance b)
  | None => 0%float
  end.

(** *** Scenarios *)

Definition gb (u : string) (b : float) : GroupBalance :=
  mkGroupBalance "g" u u 0 0 b.

(** A is owed 10, B owes 50. *)
Definition scenario_short : list GroupBalance :=
  [gb "A" 10; gb "B" (- 50)].

(** Scenario B: A is owed 60, B and C owe 30 each. *)
Definition scenario_B : list GroupBalance :=
  [gb "A" 60; gb "B" (- 30); gb "C" (- 30)].

(** The balances add up to zero within a cent, and E owes 0.011. *)
Definition scenario_unreached : list GroupBalance :=
  [gb "A" 10.0055; gb "B" 10.0055; gb "C" (- 10); gb "D" (- 10);
   gb "E" (- 0.011)].

Definition paid (id : string) (a : float) (payer : string) : Expense :=
  mkExpense id "g" "Coffee" a "food" payer payer payer
            [mkSplit payer payer a false].

(** B pays 0.1, then A pays 0.2 and 0.3; each charges the payer alone. *)
Definition expenses_three : list Expense :=
  [paid "1" 0.1 "B"; paid "2" 0.2 "A"; paid "3" 0.3 "A"].

(** A pays 0.1 and 0.2. *)
Definition expenses_two : list Expense :=
  [paid "1" 0.1 "A"; paid "2" 0.2 "A"].

(** One expense of 100 paid by A, who is not in the roster [B]; the single
    split charges B with the 100. *)
Definition expense_outside_payer : Expense :=
  mkExpense "1" "g" "Dinner" 100 "food" "A" "Alice" "A"
            [mkSplit "B" "Bob" 100 false].

Definition three_members : list string := ["m1"; "m2"; "m3"]%string.

(** Scenario E as an expense: 100 paid by m1 and split equally among the
    three members by [splitEqually]. *)
Definition expense_equal_split : Expense :=
  mkExpense "1" "g" "Dinner" 100 "food" "m1" "M1" "m1"
            (splitEqually 100 three_members []).

Definition custom (a : float) : ExpenseSplit := mkSplit "u" "U" a false.

Definition six_members : list string := ["a"; "b"; "c"; "d"; "e"; "f"]%string.

End B64.

(** * Properties *)

(** ** Numbers *)

Lemma Qltb_lt (a b : Q) : Qltb a b = true <-> a < b.
Proof.
  unfold Qltb. rewrite negb_true_iff, <- not_true_iff_false, Qle_bool_iff.
  split; [apply Qnot_le_lt | apply Qlt_not_le].
Qed.

Lemma Qltb_ge (a b : Q) : Qltb a b = false <-> b <= a.
Proof.
  unfold Qltb. rewrite negb_false_iff, Qle_bool_iff. tauto.
Qed.

Lemma Qmin_cases (x y : Q) :
  (x <= y /\ Qmin x y == x) \/ (y <= x /\ Qmin x y == y).
Proof.
  destruct (Q.min_spec x y) as [[H E] | [H E]]; [left | right]; split;
    try assumption; lra.
Qed.

(** ** Sorting *)

Section SortFacts.
Context {A : Type} (key : A -> Q).

Lemma insert_desc_perm (x : A) (l : list A) :
  Permutation (insert_desc key x l) (x :: l).
Proof.
  induction l as [| y rest IH]; simpl; [reflexivity |].
  destruct (Qle_bool (key y) (key x)); [reflexivity |].
  rewrite IH. apply perm_swap.
Qed.

Lemma sort_desc_perm (l : list A) : Permutation (sort_desc key l) l.
Proof.
  induction l as [| x l IH]; simpl; [reflexivity |].
  rewrite insert_desc_perm. now constructor.
Qed.

Lemma insert_desc_sorted (x : A) (l : list A) :
  StronglySorted (fun a b => key b <= key a) l ->
  StronglySorted (fun a b => key b <= key a) (insert_desc key x l).
Proof.
  induction 1 as [| y rest Hsorted IH Hy]; simpl.
  - constructor; constructor.
  - destruct (Qle_bool (key y) (key x)) eqn:E.
    + apply Qle_bool_iff in E. constructor.
      * now constructor.
      * constructor; [exact E |].
        eapply Forall_impl; [| exact Hy]. intros z Hz. simpl in Hz. lra.
    + assert (Hxy : key x <= key y).
      { apply Qlt_le_weak, Qnot_le_lt. intros H.
        apply Qle_bool_iff in H. congruence. }
      constructor; [exact IH |].
      eapply Permutation_Forall; [symmetry; apply insert_desc_perm |].
      now constructor.
Qed.

(** The sorted array is in descending order of [key]. *)
Lemma sort_desc_sorted (l : list A) :
  StronglySorted (fun a b => key b <= key a) (sort_desc key l).
Proof.
  induction l as [| x l IH]; simpl; [constructor |].
  now apply insert_desc_sorted.
Qed.

Lemma sort_desc_length (l : list A) :
  List.length (sort_desc key l) = List.length l.
Proof. apply Permutation_length, sort_desc_perm. Qed.

Lemma sort_desc_Forall (P : A -> Prop) (l : list A) :
  Forall P l -> Forall P (sort_desc key l).
Proof.
  intros H. eapply Permutation_Forall; [| exact H].
  symmetry. apply sort_desc_perm.
Qed.
End SortFacts.

Lemma insert_desc_map {A B : Type} (f : A -> B) (key : B -> Q) (x : A)
      (l : list A) :
  map f (insert_desc (fun a => key (f a)) x l) = insert_desc key (f x) (map f l).
Proof.
  induction l as [| y rest IH]; simpl; [reflexivity |].
  destruct (Qle_bool (key (f y)) (key (f x))); simpl; [reflexivity |].
  now rewrite IH.
Qed.

Lemma sort_desc_map {A B : Type} (f : A -> B) (key : B -> Q) (l : list A) :
  map f (sort_desc (fun a => key (f a)) l) = sort_desc key (map f l).
Proof.
  induction l as [| x l IH]; simpl; [reflexivity |].
  now rewrite insert_desc_map, IH.
Qed.

(** ** The heap loop and the loop on records *)

Lemma sub_balance_same (h : Heap.t) (c : Heap.ref) (a : Q) :
  Heap.sub_balance h c a c = set_balance (h c) (balance (h c) - a).
Proof. unfold Heap.sub_balance. now rewrite Nat.eqb_refl. Qed.

Lemma sub_balance_other (h : Heap.t) (c r : Heap.ref) (a : Q) :
  r <> c -> Heap.sub_balance h c a r = h r.
Proof.
  intros H. unfold Heap.sub_balance.
  destruct (Nat.eqb_spec r c); [contradiction | reflexivity].
Qed.

Lemma map_sub_balance_notin (h : Heap.t) (c : Heap.ref) (a : Q)
      (cs : list Heap.ref) :
  ~ In c cs -> map (Heap.sub_balance h c a) cs = map h cs.
Proof.
  intros H. apply map_ext_in. intros r Hr. apply sub_balance_other.
  intros ->. contradiction.
Qed.

(** With pairwise distinct creditor objects the heap loop is the loop on
    records. *)
Lemma settle_loop_greedy (fuel : nat) :
  forall h cs ds txs, NoDup cs ->
    option_map view (settle_loop fuel h cs ds txs) = greedy fuel (map h cs) ds txs.
Proof.
  induction fuel as [| fuel IH]; intros h cs ds txs ND.
  - destruct cs as [| c cs'], ds as [| d ds']; reflexivity.
  - destruct cs as [| c cs']; [destruct ds; reflexivity |].
    destruct ds as [| d ds']; [reflexivity |].
    inversion ND as [| ? ? Hnotin ND']; subst.
    cbn [settle_loop greedy map]. rewrite sub_balance_same.
    cbn [balance set_balance].
    destruct (Qltb (balance (h c) - Qmin (balance (h c)) (balance d)) cent).
    + rewrite IH by assumption. now rewrite map_sub_balance_notin.
    + rewrite IH by assumption. cbn [map].
      now rewrite sub_balance_same, map_sub_balance_notin.
Qed.

Lemma map_alloc_refs (l : list GroupBalance) :
  map (Heap.alloc l) (Heap.refs_of l) = l.
Proof.
  unfold Heap.refs_of, Heap.alloc.
  induction l as [| x l IH]; [reflexivity |].
  cbn [List.length seq map nth]. f_equal.
  rewrite <- seq_shift, map_map. exact IH.
Qed.

Lemma filter_map_comm {A B : Type} (f : A -> B) (p : B -> bool) (l : list A) :
  map f (filter (fun a => p (f a)) l) = filter p (map f l).
Proof.
  induction l as [| x l IH]; simpl; [reflexivity |].
  destruct (p (f x)); simpl; now rewrite IH.
Qed.

Lemma creditors_of_alloc (l : list GroupBalance) :
  map (Heap.alloc l) (creditors_of (Heap.alloc l) (Heap.refs_of l))
  = sort_desc balance (creditors l).
Proof.
  unfold creditors_of, creditors.
  rewrite (sort_desc_map (Heap.alloc l) balance).
  rewrite (filter_map_comm (Heap.alloc l) (fun b => Qltb cent (balance b))).
  now rewrite map_alloc_refs.
Qed.

Lemma debtors_of_alloc (l : list GroupBalance) :
  debtors_of (Heap.alloc l) (Heap.refs_of l)
  = sort_desc balance (map negate (debtors l)).
Proof.
  unfold debtors_of, debtors. f_equal.
  rewrite <- (map_map (Heap.alloc l) negate).
  rewrite (filter_map_comm (Heap.alloc l)
             (fun b => Qltb (balance b) (- cent))).
  now rewrite map_alloc_refs.
Qed.

Lemma creditors_of_NoDup (h : Heap.t) (refs : list Heap.ref) :
  NoDup refs -> NoDup (creditors_of h refs).
Proof.
  intros ND. unfold creditors_of.
  eapply Permutation_NoDup; [symmetry; apply sort_desc_perm |].
  now apply NoDup_filter.
Qed.

(** [simplifyDebts] on distinct objects, through the loop on records. *)
Lemma simplifyDebts_run_greedy (l : list GroupBalance) :
  option_map view (simplifyDebts_run (Heap.alloc l) (Heap.refs_of l))
  = greedy (List.length (creditors l) + List.length (debtors l))
           (sort_desc balance (creditors l))
           (sort_desc balance (map negate (debtors l))) [].
Proof.
  unfold simplifyDebts_run.
  rewrite settle_loop_greedy
    by (apply creditors_of_NoDup, seq_NoDup).
  rewrite creditors_of_alloc, debtors_of_alloc.
  rewrite <- (length_map (Heap.alloc l) (creditors_of _ _)), creditors_of_alloc.
  now rewrite !sort_desc_length, length_map.
Qed.

Lemma simplifyDebts_greedy (l : list GroupBalance) :
  simplifyDebts l
  = option_map (fun r => fst (fst r))
      (greedy (List.length (creditors l) + List.length (debtors l))
              (sort_desc balance (creditors l))
              (sort_desc balance (map negate (debtors l))) []).
Proof.
  rewrite <- simplifyDebts_run_greedy. unfold simplifyDebts.
  now destruct (simplifyDebts_run _ _).
Qed.

(** ** The greedy loop: termination, count and amounts *)

(** After [amount = Math.min(creditor.balance, debtor.balance)] is taken off
    both, one of the two is left with 0, so [i] or [j] moves. *)
Lemma one_side_settled (cb db : Q) :
  Qltb (cb - Qmin cb db) cent = true \/ Qltb (db - Qmin cb db) cent = true.
Proof.
  rewrite !Qltb_lt. unfold cent.
  destruct (Qmin_cases cb db) as [[_ E] | [_ E]]; [left | right]; lra.
Qed.

Lemma greedy_total (fuel : nat) :
  forall cs ds txs,
    (List.length cs + List.length ds <= fuel)%nat ->
    exists out cs_f ds_f,
      greedy fuel cs ds txs = Some (out, cs_f, ds_f)
      /\ (cs_f = [] \/ ds_f = [])
      /\ (List.length out
          <= List.length txs + Nat.pred (List.length cs + List.length ds))%nat.
Proof.
  induction fuel as [| fuel IH]; intros cs ds txs Hfuel.
  - destruct cs, ds; simpl in Hfuel; try lia.
    exists txs, [], []. simpl. repeat split; auto; lia.
  - destruct cs as [| c cs'].
    { exists txs, [], ds. destruct ds; simpl; repeat split; auto; lia. }
    destruct ds as [| d ds'].
    { exists txs, (c :: cs'), []. simpl. repeat split; auto; lia. }
    cbn [greedy balance set_balance]. simpl in Hfuel.
    destruct (one_side_settled (balance c) (balance d)) as [E | E].
    + rewrite E.
      destruct (Qltb (balance d - Qmin (balance c) (balance d)) cent).
      * destruct (IH cs' ds' (txs ++ [owes d c (Qmin (balance c) (balance d))]))
          as (out & cf & df & Hrun & Hend & Hlen); [lia |].
        exists out, cf, df. repeat split; auto.
        rewrite length_app in Hlen. simpl in *. lia.
      * destruct (IH cs'
                    (set_balance d (balance d - Qmin (balance c) (balance d))
                       :: ds')
                    (txs ++ [owes d c (Qmin (balance c) (balance d))]))
          as (out & cf & df & Hrun & Hend & Hlen); [simpl; lia |].
        exists out, cf, df. repeat split; auto.
        rewrite length_app in Hlen. simpl in *. lia.
    + rewrite E.
      destruct (Qltb (balance c - Qmin (balance c) (balance d)) cent).
      * destruct (IH cs' ds' (txs ++ [owes d c (Qmin (balance c) (balance d))]))
          as (out & cf & df & Hrun & Hend & Hlen); [lia |].
        exists out, cf, df. repeat split; auto.
        rewrite length_app in Hlen. simpl in *. lia.
      * destruct (IH (set_balance c (balance c - Qmin (balance c) (balance d))
                        :: cs')
                    ds'
                    (txs ++ [owes d c (Qmin (balance c) (balance d))]))
          as (out & cf & df & Hrun & Hend & Hlen); [simpl; lia |].
        exists out, cf, df. repeat split; auto.
        rewrite length_app in Hlen. simpl in *. lia.
Qed.

(** The loop of [simplifyDebts] ends within its fuel: the call returns. *)
Lemma simplifyDebts_total (l : list GroupBalance) :
  exists txs cs_f ds_f,
    greedy (List.length (creditors l) + List.length (debtors l))
           (sort_desc balance (creditors l))
           (sort_desc balance (map negate (debtors l))) []
    = Some (txs, cs_f, ds_f)
    /\ simplifyDebts l = Some txs
    /\ (cs_f = [] \/ ds_f = [])
    /\ (List.length txs
        <= Nat.pred (List.length (creditors l) + List.length (debtors l)))%nat.
Proof.
  destruct (greedy_total
              (List.length (creditors l) + List.length (debtors l))
              (sort_desc balance (creditors l))
              (sort_desc balance (map negate (debtors l))) [])
    as (out & cf & df & Hrun & Hend & Hlen).
  { rewrite !sort_desc_length, length_map. lia. }
  exists out, cf, df. repeat split; auto.
  - rewrite simplifyDebts_greedy, Hrun. reflexivity.
  - rewrite !sort_desc_length, length_map in Hlen. simpl in Hlen. exact Hlen.
Qed.

Lemma greedy_amounts (fuel : nat) :
  forall cs ds txs out cs_f ds_f,
    Forall at_least_cent cs -> Forall at_least_cent ds ->
    Forall (fun t => cent <= amount t) txs ->
    greedy fuel cs ds txs = Some (out, cs_f, ds_f) ->
    Forall (fun t => cent <= amount t) out.
Proof.
  induction fuel as [| fuel IH]; intros cs ds txs out cs_f ds_f Hcs Hds Htxs Hrun.
  - destruct cs, ds; simpl in Hrun; inversion Hrun; subst; assumption.
  - destruct cs as [| c cs'].
    { destruct ds; simpl in Hrun; inversion Hrun; subst; assumption. }
    destruct ds as [| d ds'].
    { simpl in Hrun; inversion Hrun; subst; assumption. }
    cbn [greedy balance set_balance] in Hrun.
    inversion Hcs as [| ? ? Hc Hcs']; inversion Hds as [| ? ? Hd Hds']; subst.
    unfold at_least_cent in Hc, Hd.
    assert (Ha : cent <= Qmin (balance c) (balance d)).
    { destruct (Qmin_cases (balance c) (balance d)) as [[_ E] | [_ E]]; lra. }
    eapply IH; [| | | exact Hrun].
    + destruct (Qltb (balance c - Qmin (balance c) (balance d)) cent) eqn:E;
        [assumption |].
      constructor; [| assumption].
      unfold at_least_cent. cbn [balance set_balance]. now apply Qltb_ge.
    + destruct (Qltb (balance d - Qmin (balance c) (balance d)) cent) eqn:E;
        [assumption |].
      constructor; [| assumption].
      unfold at_least_cent. cbn [balance set_balance]. now apply Qltb_ge.
    + apply Forall_app. split; [assumption |]. constructor; [| constructor].
      exact Ha.
Qed.

(** ** Properties of [simplifyDebts] *)



(** ** [simplifyDebts] writes to the creditor objects *)

(** C3 at Scenario A: the first call returns "B owes A 50" and leaves the
    object of A with [balance] 0 (it was 50) and the object of B as it was;
    a second call on the same array of the same objects returns no
    transaction. *)
Theorem simplifyDebts_second_call_differs :
  match simplifyDebts_heap (Heap.alloc scenario_A) (Heap.refs_of scenario_A) with
  | Some (txs, h1) =>
      txs = [mkBalance "B" "B owes A" 50]
      /\ balance (Heap.alloc scenario_A 0%nat) = 50
      /\ balance (h1 0%nat) = 0
      /\ h1 1%nat = Heap.alloc scenario_A 1%nat
      /\ option_map fst (simplifyDebts_heap h1 (Heap.refs_of scenario_A))
         = Some []
  | None => False
  end.
Proof. vm_compute. repeat split. Qed.

(** ** The balance map *)

Lemma map_update_keys (k : string) (f : GroupBalance -> GroupBalance)
      (m : BalMap) :
  map_keys (map_update k f m) = map_keys m.
Proof.
  induction m as [| [k' v] rest IH]; simpl; [reflexivity |].
  destruct (String.eqb k' k); simpl; [reflexivity | now rewrite IH].
Qed.

Lemma map_update_Forall (P : string * GroupBalance -> Prop) (k : string)
      (f : GroupBalance -> GroupBalance) (m : BalMap) :
  (forall k' v, P (k', v) -> P (k', f v)) ->
  Forall P m -> Forall P (map_update k f m).
Proof.
  intros Hf H. induction H as [| [k' v] rest Hkv Hrest IH]; simpl; [constructor |].
  destruct (String.eqb k' k); constructor; try assumption.
  now apply Hf.
Qed.

Lemma map_set_Forall (P : string * GroupBalance -> Prop) (k : string)
      (v : GroupBalance) (m : BalMap) :
  P (k, v) -> Forall P m -> Forall P (map_set k v m).
Proof.
  intros Hv H. induction H as [| [k' v'] rest Hkv Hrest IH]; simpl.
  - now constructor.
  - destruct (String.eqb_spec k' k) as [-> | _]; constructor; auto.
Qed.

Lemma map_set_keys (x : string) (v : GroupBalance) (m : BalMap) :
  map_keys (map_set x v m)
  = if mem x (map_keys m) then map_keys m else map_keys m ++ [x].
Proof.
  induction m as [| [k' v'] rest IH]; simpl; [reflexivity |].
  rewrite (String.eqb_sym x k').
  destruct (String.eqb k' x); simpl; [reflexivity |].
  rewrite IH. unfold mem. now destruct (existsb (String.eqb x) (map_keys rest)).
Qed.

Lemma mem_app (k : string) (l1 l2 : list string) :
  mem k (l1 ++ l2) = mem k l1 || mem k l2.
Proof. apply existsb_app. Qed.

Lemma mem_In (k : string) (l : list string) : mem k l = true <-> In k l.
Proof.
  unfold mem. rewrite existsb_exists. split.
  - intros (y & Hy & E). apply String.eqb_eq in E. now subst.
  - intros H. exists k. split; [assumption | apply String.eqb_refl].
Qed.

(** ** Roster order *)

Lemma filter_comp {A : Type} (p q : A -> bool) (l : list A) :
  filter p (filter q l) = filter (fun y => q y && p y) l.
Proof.
  induction l as [| x l IH]; simpl; [reflexivity |].
  destruct (q x); simpl; [destruct (p x) |]; now rewrite IH.
Qed.

Lemma filter_all {A : Type} (p : A -> bool) (l : list A) :
  (forall y, In y l -> p y = true) -> filter p l = l.
Proof.
  intros H. induction l as [| x l IH]; simpl; [reflexivity |].
  rewrite (H x) by now left. f_equal. apply IH. intros y Hy. apply H. now right.
Qed.

Lemma first_occurrences_In (u : string) (l : list string) :
  In u (first_occurrences l) <-> In u l.
Proof.
  induction l as [| x l IH]; simpl; [tauto |].
  rewrite filter_In, IH, negb_true_iff.
  destruct (String.eqb_spec u x) as [-> | Hne]; [tauto |].
  split; [tauto |]. intros [E | H]; [now subst | auto].
Qed.

Lemma first_occurrences_NoDup (l : list string) : NoDup (first_occurrences l).
Proof.
  induction l as [| x l IH]; simpl; constructor.
  - rewrite filter_In, String.eqb_refl. intros [_ H]. discriminate.
  - now apply NoDup_filter.
Qed.

Lemma first_occurrences_id (l : list string) :
  NoDup l -> first_occurrences l = l.
Proof.
  induction 1 as [| x l Hx _ IH]; simpl; [reflexivity |].
  rewrite IH. f_equal. apply filter_all. intros y Hy.
  apply negb_true_iff. destruct (String.eqb_spec y x); [now subst | reflexivity].
Qed.

Lemma fold_map_set_keys (f : string -> GroupBalance) (ids : list string) :
  forall m0,
    map_keys (fold_left (fun m u => map_set u (f u) m) ids m0)
    = map_keys m0
      ++ filter (fun y => negb (mem y (map_keys m0))) (first_occurrences ids).
Proof.
  induction ids as [| x ids IH]; intros m0; simpl.
  - now rewrite app_nil_r.
  - rewrite IH, map_set_keys, filter_comp.
    destruct (mem x (map_keys m0)) eqn:Hx; simpl.
    + f_equal. apply filter_ext. intros y.
      destruct (String.eqb_spec y x) as [-> | _]; simpl; [now rewrite Hx | reflexivity].
    + rewrite <- app_assoc. simpl. do 2 f_equal.
      apply filter_ext. intros y. rewrite mem_app. unfold mem at 2. simpl.
      rewrite orb_false_r.
      now destruct (mem y (map_keys m0)), (String.eqb y x).
Qed.

Lemma init_balances_keys (expenses : list Expense) (memberIds : list string)
      (names : NameMap) :
  map_keys (init_balances expenses memberIds names)
  = first_occurrences memberIds.
Proof.
  unfold init_balances.
  rewrite (fold_map_set_keys (init_entry expenses names)). simpl.
  now apply filter_all.
Qed.

Lemma add_expense_keys (m : BalMap) (e : Expense) :
  map_keys (add_expense m e) = map_keys m.
Proof.
  unfold add_expense.
  rewrite <- (map_update_keys (exp_paidBy e) (add_paid (exp_amount e)) m).
  generalize (map_update (exp_paidBy e) (add_paid (exp_amount e)) m).
  induction (exp_splits e) as [| s ss IH]; intros m'; simpl; [reflexivity |].
  rewrite IH. unfold add_split.
  destruct (split_settled s); [reflexivity | apply map_update_keys].
Qed.

Lemma fold_add_expense_keys (expenses : list Expense) :
  forall m, map_keys (fold_left add_expense expenses m) = map_keys m.
Proof.
  induction expenses as [| e es IH]; intros m; simpl; [reflexivity |].
  now rewrite IH, add_expense_keys.
Qed.

(** ** What the accumulation keeps of an entry *)

Section EntryInvariant.
Variable P : string * GroupBalance -> Prop.
Hypothesis P_paid : forall k v a, P (k, v) -> P (k, add_paid a v).
Hypothesis P_owed : forall k v a, P (k, v) -> P (k, add_owed a v).

Lemma add_expense_Forall (m : BalMap) (e : Expense) :
  Forall P m -> Forall P (add_expense m e).
Proof.
  intros H. unfold add_expense.
  assert (H1 : Forall P (map_update (exp_paidBy e) (add_paid (exp_amount e)) m))
    by (apply map_update_Forall; auto).
  revert H1. generalize (map_update (exp_paidBy e) (add_paid (exp_amount e)) m).
  induction (exp_splits e) as [| s ss IH]; intros m' H'; simpl; [assumption |].
  apply IH. unfold add_split.
  destruct (split_settled s); [assumption |].
  apply map_update_Forall; auto.
Qed.

Lemma fold_add_expense_Forall (expenses : list Expense) :
  forall m, Forall P m -> Forall P (fold_left add_expense expenses m).
Proof.
  induction expenses as [| e es IH]; intros m H; simpl; [assumption |].
  now apply IH, add_expense_Forall.
Qed.
End EntryInvariant.

Lemma init_balances_Forall (P : string * GroupBalance -> Prop)
      (expenses : list Expense) (memberIds : list string) (names : NameMap) :
  (forall u, P (u, init_entry expenses names u)) ->
  Forall P (init_balances expenses memberIds names).
Proof.
  intros HP. unfold init_balances.
  assert (H0 : Forall P []) by constructor.
  revert H0. generalize (@nil (string * GroupBalance)).
  induction memberIds as [| u ids IH]; intros m Hm; simpl; [assumption |].
  apply IH. now apply map_set_Forall.
Qed.

Lemma final_entries (expenses : list Expense) (memberIds : list string)
      (names : NameMap) :
  Forall (fun kv => gb_userId (snd kv) = fst kv
                    /\ gb_displayName (snd kv) = name_or_unknown names (fst kv))
         (fold_left add_expense expenses
                    (init_balances expenses memberIds names)).
Proof.
  apply fold_add_expense_Forall.
  - intros k v a H. exact H.
  - intros k v a H. exact H.
  - apply init_balances_Forall. intros u. simpl. auto.
Qed.

Lemma userIds_are_keys (m : BalMap) :
  Forall (fun kv => gb_userId (snd kv) = fst kv) m ->
  map gb_userId (map net (map_values m)) = map_keys m.
Proof.
  induction 1 as [| [k v] rest Hkv _ IH]; simpl; [reflexivity |].
  simpl in Hkv. now rewrite Hkv, IH.
Qed.

Lemma calculateGroupBalances_userIds (expenses : list Expense)
      (memberIds : list string) (names : NameMap) :
  map gb_userId (calculateGroupBalances expenses memberIds names)
  = first_occurrences memberIds.
Proof.
  unfold calculateGroupBalances.
  rewrite userIds_are_keys.
  - now rewrite fold_add_expense_keys, init_balances_keys.
  - eapply Forall_impl; [| apply final_entries]. simpl. tauto.
Qed.

(** C4: the entries returned by [calculateGroupBalances] are those of the
    roster members, one entry per member, in roster order (the order of the
    members' first occurrence in [memberIds]; with a duplicate-free
    [memberIds] the [userId]s of the result are [memberIds] itself); the
    function is total, and a member without an entry in the names map is
    labelled "Unknown". *)
Theorem calculateGroupBalances_roster (expenses : list Expense)
        (memberIds : list string) (names : NameMap) :
  let out := calculateGroupBalances expenses memberIds names in
  map gb_userId out = first_occurrences memberIds
  /\ NoDup (map gb_userId out)
  /\ (forall u, In u memberIds <-> In u (map gb_userId out))
  /\ (NoDup memberIds ->
      map gb_userId out = memberIds
      /\ List.length out = List.length memberIds)
  /\ Forall (fun b => gb_displayName b = name_or_unknown names (gb_userId b))
            out
  /\ (forall u, names_get names u = None ->
                name_or_unknown names u = "Unknown"%string).
Proof.
  intros out. subst out.
  pose proof (calculateGroupBalances_userIds expenses memberIds names) as Hids.
  split; [exact Hids |]. split; [rewrite Hids; apply first_occurrences_NoDup |].
  split; [intros u; rewrite Hids; symmetry; apply first_occurrences_In |].
  split.
  - intros ND. rewrite first_occurrences_id in Hids by assumption.
    split; [exact Hids |]. now rewrite <- Hids at 2; rewrite length_map.
  - split.
    + unfold calculateGroupBalances, map_values. rewrite map_map.
      apply Forall_map.
      eapply Forall_impl; [| apply final_entries].
      intros [k v] [H1 H2]. simpl in *. now rewrite H1.
    + intros u H. unfold name_or_unknown. now rewrite H.
Qed.

(** ** Splits *)

(** C8, as stated, fails: with an empty member list the call completes
    normally, returning the empty list of splits; nothing is thrown. *)
Lemma splitEqually_empty_no_error :
  splitEqually_call 100 [] [] = Normal []
  /\ ~ (exists message, splitEqually_call 100 [] [] = Throw message).
Proof.
  split; [reflexivity |]. intros [message H]. discriminate H.
Qed.

(** C8 (amended): [splitEqually] makes no check of its arguments; called
    with an empty [memberIds] list it completes normally and returns the
    empty list of splits, whatever the amount. *)
Theorem splitEqually_empty (amt : Q) (names : NameMap) :
  splitEqually_call amt [] names = Normal []
  /\ splitEqually amt [] names = [].
Proof. split; reflexivity. Qed.

(** ** The scenarios of the repository's tests and plans *)

(** [balanceCalculator.test.ts], "should split amount equally among
    members". *)
Example test_splitEqually :
  map split_amount
      (splitEqually 90 ["user1"; "user2"; "user3"]%string
                    [("user1", "Alice"); ("user2", "Bob");
                     ("user3", "Charlie")]%string)
  = [3000 # 100; 3000 # 100; 3000 # 100]
  /\ (3000 # 100) == 30.
Proof. split; reflexivity. Qed.

(** [balanceCalculator.test.ts], "should calculate balances correctly":
    Alice paid 60 and owes 30, Bob paid nothing and owes 30. *)
Example test_calculateGroupBalances :
  map (fun b => (gb_userId b, gb_displayName b, Qred (balance b)))
      (calculateGroupBalances
         [mkExpense "1" "group1" "Dinner" 60 "food" "user1" "Alice" "user1"
                    [mkSplit "user1" "Alice" 30 false;
                     mkSplit "user2" "Bob" 30 false]]
         ["user1"; "user2"]%string
         [("user1", "Alice"); ("user2", "Bob")]%string)
  = [("user1", "Alice", 30); ("user2", "Bob", - 30)]%string.
Proof. reflexivity. Qed.

(** Scenario A: one transaction, B owes A 50. *)
Example scenario_A_transactions :
  simplifyDebts scenario_A = Some [mkBalance "B" "B owes A" 50].
Proof. reflexivity. Qed.

(** Scenario B: B owes A 30, then C owes A 30; the loop ends with both
    pools exhausted. *)
Example scenario_B_transactions :
  option_map (fun s => (transactions s, creditors_rest s, debtors_rest s))
             (simplifyDebts_run (Heap.alloc scenario_B)
                                (Heap.refs_of scenario_B))
  = Some ([mkBalance "B" "B owes A" 30; mkBalance "C" "C owes A" 30], [], []).
Proof. reflexivity. Qed.

(** * Further properties *)

(** ** [simplifyDebts]: when it is empty and who pays *)

Lemma greedy_extends (fuel : nat) :
  forall cs ds txs out cs_f ds_f,
    greedy fuel cs ds txs = Some (out, cs_f, ds_f) ->
    exists more, out = txs ++ more.
Proof.
  induction fuel as [| fuel IH]; intros cs ds txs out cs_f ds_f Hrun.
  - destruct cs, ds; simpl in Hrun; inversion Hrun; subst;
      exists []; now rewrite app_nil_r.
  - destruct cs as [| c cs'].
    { destruct ds; simpl in Hrun; inversion Hrun; subst;
        exists []; now rewrite app_nil_r. }
    destruct ds as [| d ds'].
    { simpl in Hrun; inversion Hrun; subst. exists []. now rewrite app_nil_r. }
    cbn [greedy] in Hrun. apply IH in Hrun as [more ->].
    rewrite <- app_assoc. eauto.
Qed.

Lemma sort_desc_nil_inv {A : Type} (key : A -> Q) (l : list A) :
  sort_desc key l = [] -> l = [].
Proof.
  intros H. apply length_zero_iff_nil.
  now rewrite <- (sort_desc_length key), H.
Qed.


Lemma greedy_parties (C D : list GroupBalance) (fuel : nat) :
  forall cs ds txs out cs_f ds_f,
    Forall (from_pool C) cs -> Forall (from_pool D) ds ->
    Forall (pairs_of C D) txs ->
    greedy fuel cs ds txs = Some (out, cs_f, ds_f) ->
    Forall (pairs_of C D) out.
Proof.
  induction fuel as [| fuel IH]; intros cs ds txs out cs_f ds_f Hcs Hds Htxs Hrun.
  - destruct cs, ds; simpl in Hrun; inversion Hrun; subst; assumption.
  - destruct cs as [| c cs'].
    { destruct ds; simpl in Hrun; inversion Hrun; subst; assumption. }
    destruct ds as [| d ds'].
    { simpl in Hrun; inversion Hrun; subst; assumption. }
    cbn [greedy] in Hrun.
    inversion Hcs as [| ? ? Hc Hcs']; inversion Hds as [| ? ? Hd Hds']; subst.
    assert (Hcs1 : Forall (from_pool C)
                     (if Qltb (balance (set_balance c (balance c - Qmin (balance c) (balance d)))) cent
                      then cs'
                      else set_balance c (balance c - Qmin (balance c) (balance d)) :: cs')).
    { match goal with |- Forall _ (if ?t then _ else _) => destruct t end;
        [assumption |]. constructor; [| assumption].
      destruct Hc as (c0 & H0 & H1 & H2). exists c0. auto. }
    assert (Hds1 : Forall (from_pool D)
                     (if Qltb (balance (set_balance d (balance d - Qmin (balance c) (balance d)))) cent
                      then ds'
                      else set_balance d (balance d - Qmin (balance c) (balance d)) :: ds')).
    { match goal with |- Forall _ (if ?t then _ else _) => destruct t end;
        [assumption |]. constructor; [| assumption].
      destruct Hd as (d0 & H0 & H1 & H2). exists d0. auto. }
    refine (IH _ _ _ _ _ _ Hcs1 Hds1 _ Hrun).
    apply Forall_app. split; [assumption |]. constructor; [| constructor].
    destruct Hc as (c0 & Hc0 & _ & Hcn), Hd as (d0 & Hd0 & Hdi & Hdn).
    exists d0, c0. cbn [owes bal_userId bal_displayName].
    repeat split; auto. now rewrite Hcn, Hdn.
Qed.


(** ** [simplifyDebts]: what it writes to the caller's objects *)

Lemma settle_loop_total (fuel : nat) :
  forall h cs ds txs,
    (List.length cs + List.length ds <= fuel)%nat ->
    exists s, settle_loop fuel h cs ds txs = Some s.
Proof.
  induction fuel as [| fuel IH]; intros h cs ds txs Hfuel.
  - destruct cs, ds; simpl in Hfuel; try lia; simpl; eauto.
  - destruct cs as [| c cs']; [destruct ds; simpl; eauto |].
    destruct ds as [| d ds']; [simpl; eauto |].
    cbn [settle_loop]. rewrite sub_balance_same. cbn [balance set_balance].
    simpl in Hfuel.
    destruct (one_side_settled (balance (h c)) (balance d)) as [E | E];
      rewrite E.
    + destruct (Qltb (balance d - Qmin (balance (h c)) (balance d)) cent);
        apply IH; simpl; lia.
    + destruct (Qltb (balance (h c) - Qmin (balance (h c)) (balance d)) cent);
        apply IH; simpl; lia.
Qed.

Lemma set_balance_twice (b : GroupBalance) (x y : Q) :
  set_balance (set_balance b x) y = set_balance b y.
Proof. reflexivity. Qed.

Lemma set_balance_same (b : GroupBalance) : set_balance b (balance b) = b.
Proof. now destruct b. Qed.

Lemma settle_loop_effect (fuel : nat) :
  forall h cs ds txs s,
    (forall c, In c cs -> 0 <= balance (h c)) ->
    Forall (fun d => 0 <= balance d) ds ->
    settle_loop fuel h cs ds txs = Some s ->
    forall r,
      heap s r = set_balance (h r) (balance (heap s r))
      /\ balance (heap s r) <= balance (h r)
      /\ (In r cs -> 0 <= balance (heap s r))
      /\ (~ In r cs -> heap s r = h r).
Proof.
  assert (Hbase : forall h (cs : list Heap.ref) r,
             (forall c, In c cs -> 0 <= balance (h c)) ->
             h r = set_balance (h r) (balance (h r))
             /\ balance (h r) <= balance (h r)
             /\ (In r cs -> 0 <= balance (h r))
             /\ (~ In r cs -> h r = h r)).
  { intros h cs r Hcs. rewrite set_balance_same.
    repeat split; auto. apply Qle_refl. }
  induction fuel as [| fuel IH]; intros h cs ds txs s Hcs Hds Hrun r.
  - destruct cs, ds; simpl in Hrun; inversion Hrun; subst; cbn [heap];
      now apply Hbase.
  - destruct cs as [| c cs'].
    { destruct ds; simpl in Hrun; inversion Hrun; subst; cbn [heap];
        now apply Hbase. }
    destruct ds as [| d ds'].
    { simpl in Hrun; inversion Hrun; subst; cbn [heap]. now apply Hbase. }
    cbn [settle_loop] in Hrun.
    inversion Hds as [| ? ? Hd Hds']; subst.
    pose proof (Hcs c (or_introl eq_refl)) as Hc.
    pose proof (Q.le_min_l (balance (h c)) (balance d)) as Hl.
    pose proof (Q.le_min_r (balance (h c)) (balance d)) as Hr.
    assert (Ha : 0 <= Qmin (balance (h c)) (balance d)).
    { destruct (Qmin_cases (balance (h c)) (balance d)) as [[_ E] | [_ E]]; lra. }
    set (a := Qmin (balance (h c)) (balance d)) in *.
    set (h' := Heap.sub_balance h c a) in *.
    assert (Hh'c : balance (h' c) == balance (h c) - a).
    { unfold h'. rewrite sub_balance_same. reflexivity. }
    assert (Hh' : forall x, x <> c -> h' x = h x).
    { intros x Hx. unfold h'. now apply sub_balance_other. }
    set (cs1 := if Qltb (balance (h' c)) cent then cs' else c :: cs') in *.
    assert (Hsub : forall x, In x cs1 -> In x (c :: cs')).
    { intros x. unfold cs1. destruct (Qltb (balance (h' c)) cent);
        simpl; tauto. }
    assert (Hsup : forall x, In x cs' -> In x cs1).
    { intros x. unfold cs1. destruct (Qltb (balance (h' c)) cent);
        simpl; tauto. }
    assert (Hcs1 : forall x, In x cs1 -> 0 <= balance (h' x)).
    { intros x Hx. destruct (Nat.eq_dec x c) as [-> | Hne].
      - rewrite Hh'c. lra.
      - rewrite Hh' by assumption. apply Hcs. now apply Hsub. }
    assert (Hds1 : Forall (fun d0 => 0 <= balance d0)
                     (if Qltb (balance (set_balance d (balance d - a))) cent
                      then ds' else set_balance d (balance d - a) :: ds')).
    { match goal with |- Forall _ (if ?t then _ else _) => destruct t end;
        [assumption |].
      constructor; [cbn [balance set_balance]; lra | assumption]. }
    destruct (IH _ _ _ _ _ Hcs1 Hds1 Hrun r) as (Hrec & Hle & Hin & Hout).
    assert (Hstep : h' r = set_balance (h r) (balance (h' r))
                    /\ balance (h' r) <= balance (h r)).
    { destruct (Nat.eq_dec r c) as [-> | Hne].
      - split; [| rewrite Hh'c; lra].
        unfold h'. rewrite sub_balance_same. reflexivity.
      - rewrite Hh' by assumption. rewrite set_balance_same.
        split; [reflexivity | apply Qle_refl]. }
    destruct Hstep as [Hstep1 Hstep2].
    split; [| split; [| split]].
    + rewrite Hrec, Hstep1. cbn [balance set_balance].
      now rewrite set_balance_twice.
    + lra.
    + intros Hr0. destruct (in_dec Nat.eq_dec r cs1) as [H1 | H1]; [auto |].
      rewrite (Hout H1).
      destruct (Nat.eq_dec r c) as [-> | Hne]; [rewrite Hh'c; lra |].
      exfalso. apply H1, Hsup. destruct Hr0; [congruence | assumption].
    + intros Hr0. rewrite Hout.
      * apply Hh'. intros ->. apply Hr0. now left.
      * intros H1. apply Hr0. now apply Hsub.
Qed.

Lemma creditors_of_In (h : Heap.t) (refs : list Heap.ref) (r : Heap.ref) :
  In r (creditors_of h refs) <-> In r refs /\ cent < balance (h r).
Proof.
  unfold creditors_of. split.
  - intros H. apply (Permutation_in _ (sort_desc_perm _ _)) in H.
    apply filter_In in H. now rewrite Qltb_lt in H.
  - intros H. apply (Permutation_in _ (Permutation_sym (sort_desc_perm _ _))).
    apply filter_In. now rewrite Qltb_lt.
Qed.


(** ** [simplifyDebts]: the first transaction *)

Lemma sort_desc_head_max {A : Type} (key : A -> Q) (l : list A) (x : A)
      (rest : list A) :
  sort_desc key l = x :: rest ->
  In x l /\ forall y, In y l -> key y <= key x.
Proof.
  intros E. pose proof (sort_desc_sorted key l) as Hs.
  pose proof (sort_desc_perm key l) as Hp. rewrite E in Hs, Hp.
  split.
  - apply (Permutation_in _ Hp). now left.
  - intros y Hy. apply (Permutation_in _ (Permutation_sym Hp)) in Hy.
    destruct Hy as [<- | Hy]; [apply Qle_refl |].
    apply StronglySorted_inv in Hs as [_ Hs].
    rewrite Forall_forall in Hs. now apply Hs.
Qed.



(** ** [calculateGroupBalances]: empty inputs and the group id *)

Lemma map_update_nil_keys (m : BalMap) : map_keys m = [] -> m = [].
Proof. unfold map_keys. apply map_eq_nil. Qed.

(** X9: with an empty roster [calculateGroupBalances] returns the empty
    array whatever the expenses; with no expense every entry has
    [totalPaid], [totalOwed] and [balance] 0; and every entry carries the
    [groupId] of the first expense, the empty string when there is none. *)
Theorem calculateGroupBalances_edges (expenses : list Expense)
        (memberIds : list string) (names : NameMap) :
  calculateGroupBalances expenses [] names = []
  /\ Forall (fun b => totalPaid b = 0 /\ totalOwed b = 0 /\ balance b == 0)
            (calculateGroupBalances [] memberIds names)
  /\ Forall (fun b => gb_groupId b = match expenses with
                                     | [] => EmptyString
                                     | e :: _ => exp_groupId e
                                     end)
            (calculateGroupBalances expenses memberIds names).
Proof.
  split; [| split].
  - unfold calculateGroupBalances.
    rewrite (map_update_nil_keys
               (fold_left add_expense expenses (init_balances expenses [] names)));
      [reflexivity |].
    now rewrite fold_add_expense_keys.
  - unfold calculateGroupBalances, map_values. cbn [fold_left].
    rewrite map_map. apply Forall_map.
    eapply Forall_impl;
      [| apply (init_balances_Forall
                  (fun kv => totalPaid (snd kv) = 0 /\ totalOwed (snd kv) = 0));
         intros u; simpl; auto].
    intros [k v] [Hp Ho]. simpl in *. rewrite Hp, Ho.
    repeat split; reflexivity.
  - unfold calculateGroupBalances, map_values. rewrite map_map.
    apply Forall_map.
    eapply Forall_impl;
      [| apply (fold_add_expense_Forall
                  (fun kv => gb_groupId (snd kv) = first_groupId expenses));
         [intros k v a H; exact H | intros k v a H; exact H |
          apply init_balances_Forall; intros u; reflexivity]].
    intros [k v] H. exact H.
Qed.

(** ** [handleToggleMember] *)

Lemma mem_filter_ne (v u : string) (l : list string) :
  mem v (filter (fun id => negb (String.eqb id u)) l)
  = mem v l && negb (String.eqb v u).
Proof.
  induction l as [| x l IH]; [reflexivity |].
  cbn [filter]. destruct (String.eqb_spec x u) as [-> | Hxu]; cbn [negb].
  - unfold mem in *. cbn [existsb]. rewrite IH.
    destruct (String.eqb v u), (existsb (String.eqb v) l); reflexivity.
  - unfold mem in *. cbn [existsb]. rewrite IH.
    destruct (String.eqb_spec v x) as [-> | Hvx]; [| reflexivity].
    destruct (String.eqb_spec x u); [contradiction | reflexivity].
Qed.

Lemma filter_ne_notin (u : string) (l : list string) :
  ~ In u l -> filter (fun id => negb (String.eqb id u)) l = l.
Proof.
  intros H. apply filter_all. intros y Hy. apply negb_true_iff.
  destruct (String.eqb_spec y u); [now subst | reflexivity].
Qed.

(** X14: [handleToggleMember] flips the selection of the toggled member and
    of nobody else, and keeps a duplicate-free selection duplicate-free; an
    unselected member is appended at the end, and toggling that member
    again gives back the selection as it was. *)
Theorem handleToggleMember_flips (selectedMembers : list string)
        (userId : string) :
  mem userId (handleToggleMember selectedMembers userId)
  = negb (mem userId selectedMembers)
  /\ (forall v, v <> userId ->
                mem v (handleToggleMember selectedMembers userId)
                = mem v selectedMembers)
  /\ (NoDup selectedMembers ->
      NoDup (handleToggleMember selectedMembers userId))
  /\ (~ In userId selectedMembers ->
      handleToggleMember selectedMembers userId = selectedMembers ++ [userId]
      /\ handleToggleMember (handleToggleMember selectedMembers userId) userId
         = selectedMembers).
Proof.
  unfold handleToggleMember at 1 2 3.
  destruct (mem userId selectedMembers) eqn:E.
  - split; [| split; [| split]].
    + rewrite mem_filter_ne, String.eqb_refl. now rewrite andb_false_r.
    + intros v Hv. rewrite mem_filter_ne.
      destruct (String.eqb_spec v userId); [contradiction |].
      now rewrite andb_true_r.
    + intros ND. now apply NoDup_filter.
    + intros H. apply mem_In in E. contradiction.
  - assert (Hnot : ~ In userId selectedMembers).
    { intros H. apply mem_In in H. congruence. }
    split; [| split; [| split]].
    + rewrite mem_app. unfold mem at 2. cbn [existsb].
      rewrite String.eqb_refl. now rewrite orb_true_r.
    + intros v Hv. rewrite mem_app. unfold mem at 2. cbn [existsb].
      destruct (String.eqb_spec v userId); [contradiction |].
      now rewrite !orb_false_r.
    + intros ND.
      apply (Permutation_NoDup (l := userId :: selectedMembers)).
      * rewrite Permutation_app_comm. reflexivity.
      * now constructor.
    + intros _. unfold handleToggleMember. rewrite E. split; [reflexivity |].
      rewrite mem_app. unfold mem at 2. cbn [existsb].
      rewrite String.eqb_refl, orb_true_r.
      rewrite filter_app. cbn [filter]. rewrite String.eqb_refl. cbn [negb].
      rewrite app_nil_r. now apply filter_ne_notin.
Qed.

(** ** The expenses store *)

Lemma smap_get_set {V : Type} (k : string) (v : V) (m : StrMap V)
      (u : string) :
  smap_get (smap_set k v m) u
  = if String.eqb k u then Some v else smap_get m u.
Proof.
  induction m as [| [k' v'] rest IH]; simpl.
  - reflexivity.
  - destruct (String.eqb_spec k' k) as [-> | Hk]; simpl.
    + destruct (String.eqb k u); reflexivity.
    + rewrite IH. destruct (String.eqb_spec k' u) as [-> | Hu];
        [| reflexivity].
      destruct (String.eqb_spec k u); [congruence | reflexivity].
Qed.

Lemma group_after_set (g g' : string) (l : list Expense)
      (m : StrMap (list Expense)) :
  ExpensesStore.group_or_empty (smap_set g l m) g'
  = if String.eqb g g' then l else ExpensesStore.group_or_empty m g'.
Proof.
  unfold ExpensesStore.group_or_empty. rewrite smap_get_set.
  now destruct (String.eqb g g').
Qed.

(** X15: in the expenses store a group that was never written reads as the
    empty list; [setExpenses] and [addExpense] change what
    [getGroupExpenses] returns for their own group only: the list that was
    set, respectively the new expense in front of the old list. *)
Theorem expensesStore_set_add (g g' : string) (l : list Expense)
        (e : Expense) (st : ExpensesStore.State) :
  ExpensesStore.getGroupExpenses g' ExpensesStore.initial = []
  /\ ExpensesStore.getGroupExpenses g' (ExpensesStore.setExpenses g l st)
     = (if String.eqb g g' then l
        else ExpensesStore.getGroupExpenses g' st)
  /\ ExpensesStore.getGroupExpenses g' (ExpensesStore.addExpense g e st)
     = (if String.eqb g g' then e :: ExpensesStore.getGroupExpenses g st
        else ExpensesStore.getGroupExpenses g' st).
Proof.
  unfold ExpensesStore.getGroupExpenses, ExpensesStore.setExpenses,
    ExpensesStore.addExpense.
  cbn [ExpensesStore.expenses]. rewrite !group_after_set.
  repeat split; reflexivity.
Qed.

(** X16: after [removeExpense] the group holds exactly the expenses it held
    whose id is not the removed one, in their order; when no expense has the
    id the list reads as before; the other groups read as before. *)
Theorem expensesStore_remove (g g' expenseId : string)
        (st : ExpensesStore.State) :
  let before := ExpensesStore.getGroupExpenses g st in
  let st' := ExpensesStore.removeExpense g expenseId st in
  ExpensesStore.getGroupExpenses g st'
  = filter (fun exp => negb (String.eqb (exp_id exp) expenseId)) before
  /\ (forall e, In e (ExpensesStore.getGroupExpenses g st')
                <-> In e before /\ exp_id e <> expenseId)
  /\ (~ In expenseId (map exp_id before) ->
      ExpensesStore.getGroupExpenses g st' = before)
  /\ (g' <> g ->
      ExpensesStore.getGroupExpenses g' st'
      = ExpensesStore.getGroupExpenses g' st).
Proof.
  intros before st'.
  assert (E : ExpensesStore.getGroupExpenses g st'
              = filter (fun exp => negb (String.eqb (exp_id exp) expenseId))
                       before).
  { unfold st', ExpensesStore.getGroupExpenses, ExpensesStore.removeExpense.
    cbn [ExpensesStore.expenses]. rewrite group_after_set.
    now rewrite String.eqb_refl. }
  split; [exact E |]. split; [| split].
  - intros e. rewrite E, filter_In, negb_true_iff.
    destruct (String.eqb_spec (exp_id e) expenseId); intuition congruence.
  - intros Hnot. rewrite E. apply filter_all. intros y Hy.
    apply negb_true_iff.
    destruct (String.eqb_spec (exp_id y) expenseId) as [Heq | _];
      [| reflexivity].
    exfalso. apply Hnot. rewrite <- Heq. now apply in_map.
  - intros Hne.
    unfold st', ExpensesStore.getGroupExpenses, ExpensesStore.removeExpense.
    cbn [ExpensesStore.expenses]. rewrite group_after_set.
    destruct (String.eqb_spec g g'); [congruence | reflexivity].
Qed.

Lemma map_update_id (expenseId : string) (updates : ExpenseUpdates)
      (l : list Expense) :
  upd_id updates = None ->
  map exp_id
      (map (fun exp => if String.eqb (exp_id exp) expenseId
                       then apply_updates exp updates else exp) l)
  = map exp_id l.
Proof.
  intros Hid. rewrite map_map. apply map_ext. intros exp.
  destruct (String.eqb (exp_id exp) expenseId); [| reflexivity].
  unfold apply_updates. cbn [exp_id]. now rewrite Hid.
Qed.

(** X17: [updateExpense] keeps the number and the order of the expenses of
    the group; an expense with another id is left as it is, one with the
    given id gets exactly the fields the update carries; when the update
    does not carry an id the ids stay as they were; when no expense has the
    id the list reads as before. *)
Theorem expensesStore_update (g expenseId : string) (updates : ExpenseUpdates)
        (st : ExpensesStore.State) :
  let before := ExpensesStore.getGroupExpenses g st in
  let after :=
    ExpensesStore.getGroupExpenses
      g (ExpensesStore.updateExpense g expenseId updates st) in
  Forall2 (fun old new =>
             (exp_id old <> expenseId -> new = old)
             /\ (exp_id old = expenseId -> new = apply_updates old updates))
          before after
  /\ List.length after = List.length before
  /\ (upd_id updates = None -> map exp_id after = map exp_id before)
  /\ (~ In expenseId (map exp_id before) -> after = before).
Proof.
  intros before after.
  assert (E : after
              = map (fun exp => if String.eqb (exp_id exp) expenseId
                                then apply_updates exp updates else exp)
                    before).
  { unfold after, ExpensesStore.getGroupExpenses, ExpensesStore.updateExpense.
    cbn [ExpensesStore.expenses]. rewrite group_after_set.
    now rewrite String.eqb_refl. }
  rewrite E. clear E after. clearbody before.
  split; [| split; [| split]].
  - induction before as [| x l IH]; simpl; constructor; [| exact IH].
    destruct (String.eqb_spec (exp_id x) expenseId); split; intros;
      congruence.
  - apply length_map.
  - apply map_update_id.
  - intros Hnot. rewrite <- (map_id before) at 2. apply map_ext_in.
    intros y Hy.
    destruct (String.eqb_spec (exp_id y) expenseId) as [Heq | _];
      [| reflexivity].
    exfalso. apply Hnot. rewrite <- Heq. now apply in_map.
Qed.

(** X18: removing an expense right after adding it gives back the list the
    group had, provided no expense of the group already had that id. *)
Theorem expensesStore_add_remove (g : string) (e : Expense)
        (st : ExpensesStore.State)
        (Hfresh : ~ In (exp_id e)
                       (map exp_id (ExpensesStore.getGroupExpenses g st))) :
  ExpensesStore.getGroupExpenses
    g (ExpensesStore.removeExpense g (exp_id e)
                                   (ExpensesStore.addExpense g e st))
  = ExpensesStore.getGroupExpenses g st.
Proof.
  unfold ExpensesStore.getGroupExpenses, ExpensesStore.removeExpense,
    ExpensesStore.addExpense in *.
  cbn [ExpensesStore.expenses] in *. rewrite !group_after_set.
  rewrite !String.eqb_refl. cbn [filter]. rewrite String.eqb_refl.
  cbn [negb]. apply filter_all. intros y Hy. apply negb_true_iff.
  destruct (String.eqb_spec (exp_id y) (exp_id e)) as [Heq | _];
    [| reflexivity].
  exfalso. apply Hfresh. rewrite <- Heq. now apply in_map.
Qed.

Lemma expensesStore_add_remove_witness :
  ExpensesStore.getGroupExpenses
    "g" (ExpensesStore.addExpense "g" expense_taxi ExpensesStore.initial)
  = [expense_taxi]
  /\ ExpensesStore.getGroupExpenses
       "g" (ExpensesStore.removeExpense
              "g" (exp_id expense_outside_payer)
              (ExpensesStore.addExpense
                 "g" expense_outside_payer
                 (ExpensesStore.addExpense "g" expense_taxi
                                           ExpensesStore.initial)))
     = ExpensesStore.getGroupExpenses
         "g" (ExpensesStore.addExpense "g" expense_taxi
                                       ExpensesStore.initial).
Proof.
  split; [reflexivity |].
  apply expensesStore_add_remove. simpl. intros [H | []]. discriminate H.
Defined.

(** ** [BalanceItem]: the three classes of a balance *)

Lemma Qabs_cases (x : Q) :
  (0 <= x /\ Qabs x == x) \/ (x <= 0 /\ Qabs x == - x).
Proof.
  destruct (Qlt_le_dec x 0) as [H | H].
  - right. split; [lra |]. apply Qabs_neg. lra.
  - left. split; [assumption |]. now apply Qabs_pos.
Qed.


(** ** [handleFirebaseError] *)

Lemma message_or_default_nonempty (error : FirebaseError) :
  message_or_default error <> EmptyString.
Proof.
  unfold message_or_default.
  destruct (err_message error) as [[| ch m] |]; discriminate.
Qed.

(** X21: [handleFirebaseError] never returns the empty string: an error
    without a code gives its message, and a missing or empty message is
    replaced by "An error occurred". *)
Theorem handleFirebaseError_nonempty (error : FirebaseError) :
  handleFirebaseError error <> EmptyString
  /\ (err_code error = None ->
      handleFirebaseError error = message_or_default error)
  /\ (err_message error = None \/ err_message error = Some EmptyString ->
      message_or_default error = "An error occurred"%string).
Proof.
  split; [| split].
  - unfold handleFirebaseError.
    destruct (err_code error) as [code |];
      [| apply message_or_default_nonempty].
    repeat match goal with
           | |- (if ?c then _ else _) <> _ => destruct c; [discriminate |]
           end.
    apply message_or_default_nonempty.
  - intros H. unfold handleFirebaseError. now rewrite H.
  - unfold message_or_default. intros [-> | ->]; reflexivity.
Qed.

(** ** The auth store and the user store *)

Lemma auth_act_consistent (st : AuthStore.State) (a : AuthStore.Action) :
  AuthStore.consistent st -> AuthStore.consistent (AuthStore.act st a).
Proof. unfold AuthStore.consistent. intros H. destruct a; simpl; auto. Qed.

Lemma auth_run_consistent (actions : list AuthStore.Action) :
  forall st, AuthStore.consistent st ->
             AuthStore.consistent (AuthStore.run_from st actions).
Proof.
  induction actions as [| a actions IH]; intros st H; simpl; [exact H |].
  apply IH. now apply auth_act_consistent.
Qed.

Lemma auth_run_keeps_user (actions : list AuthStore.Action) :
  forall st,
    forallb AuthStore.keeps_user actions = true ->
    AuthStore.user (AuthStore.run_from st actions) = AuthStore.user st
    /\ AuthStore.isAuthenticated (AuthStore.run_from st actions)
       = AuthStore.isAuthenticated st.
Proof.
  induction actions as [| a actions IH]; intros st H; simpl; [auto |].
  simpl in H. apply andb_true_iff in H as [Ha H].
  destruct (IH (AuthStore.act st a) H) as [H1 H2].
  rewrite H1, H2. destruct a; simpl in *; auto; discriminate.
Qed.

(** X22: in the auth store [isAuthenticated] says whether [user] is not
    null in the initial state, after [setUser] and after [logout] whatever
    the state was, and every action keeps it so; hence it is so throughout
    a session that starts with nothing in the storage.  The rehydration by
    [persist] does not keep it: only [user] is stored, so a session that
    starts from a stored user has [user] set and [isAuthenticated] false
    until the first [setUser] or [logout].  Whatever came before, [logout]
    leaves no user, no error and no verification id. *)
Theorem authStore_authenticated_iff_user (st : AuthStore.State)
        (actions : list AuthStore.Action) (u : User) :
  (AuthStore.consistent AuthStore.initial
   /\ (forall v, AuthStore.consistent (AuthStore.setUser v st))
   /\ AuthStore.consistent (AuthStore.logout st)
   /\ (AuthStore.consistent st ->
       AuthStore.consistent (AuthStore.run_from st actions))
   /\ AuthStore.consistent (AuthStore.session None actions))
  /\ (AuthStore.stored (AuthStore.setUser (Some u) st) = Some u
      /\ (forallb AuthStore.keeps_user actions = true ->
          AuthStore.user (AuthStore.session (Some (Some u)) actions) = Some u
          /\ AuthStore.isAuthenticated
               (AuthStore.session (Some (Some u)) actions) = false))
  /\ (AuthStore.user (AuthStore.logout st) = None
      /\ AuthStore.error (AuthStore.logout st) = None
      /\ AuthStore.verificationId (AuthStore.logout st) = None).
Proof.
  split; [| split].
  - split; [reflexivity |]. split; [intros v; reflexivity |].
    split; [reflexivity |]. split; [apply auth_run_consistent |].
    apply auth_run_consistent. reflexivity.
  - split; [reflexivity |]. intros H.
    exact (auth_run_keeps_user actions _ H).
  - repeat split.
Qed.

Lemma find_app {A : Type} (p : A -> bool) (l1 l2 : list A) :
  find p (l1 ++ l2)
  = match find p l1 with
    | Some x => Some x
    | None => find p l2
    end.
Proof.
  induction l1 as [| x l1 IH]; simpl; [reflexivity |].
  now destruct (p x).
Qed.

(** X23: in the user store [getUser] after [addUser] returns the added user
    under that user's id and what it returned before under any other id;
    after [addUsers] it returns the last user of the batch with the id, and
    what it returned before when the batch has none. *)
Theorem userStore_lookup (userId : string) (u : User) (us : list User)
        (st : UserStore.State) :
  UserStore.getUser userId (UserStore.addUser u st)
  = (if String.eqb (user_id u) userId then Some u
     else UserStore.getUser userId st)
  /\ UserStore.getUser userId (UserStore.addUsers us st)
     = match find (fun x => String.eqb (user_id x) userId) (rev us) with
       | Some x => Some x
       | None => UserStore.getUser userId st
       end.
Proof.
  unfold UserStore.getUser, UserStore.addUser, UserStore.addUsers.
  split; [apply smap_get_set |].
  revert st. induction us as [| x us IH]; intros st; [reflexivity |].
  cbn [fold_left rev]. rewrite IH, find_app, smap_get_set. cbn [find].
  destruct (find (fun x0 => String.eqb (user_id x0) userId) (rev us));
    [reflexivity |].
  now destruct (String.eqb (user_id x) userId).
Qed.

Lemma smap_set_Forall {V : Type} (P : string * V -> Prop) (k : string)
      (v : V) (m : StrMap V) :
  P (k, v) -> Forall P m -> Forall P (smap_set k v m).
Proof.
  intros Hv H. induction H as [| [k' v'] rest Hkv Hrest IH]; simpl.
  - now constructor.
  - destruct (String.eqb_spec k' k) as [-> | _]; constructor; auto.
Qed.

Lemma smap_get_Forall {V : Type} (P : string * V -> Prop) (m : StrMap V)
      (k : string) (v : V) :
  Forall P m -> smap_get m k = Some v -> P (k, v).
Proof.
  induction 1 as [| [k' v'] rest Hkv _ IH]; simpl; [discriminate |].
  destruct (String.eqb_spec k' k) as [-> | _]; [| exact IH].
  intros E. now inversion E; subst.
Qed.

(** X24: in a user store filled by any sequence of [addUsers] batches (an
    [addUser] is a batch of one) every user is filed under the user's own
    id: [getUser(id)] never returns a user with another id. *)
Theorem userStore_own_id (batches : list (list User)) (userId : string)
        (u : User)
        (Hget : UserStore.getUser userId
                  (fold_left (fun st us => UserStore.addUsers us st)
                             batches UserStore.initial)
                = Some u) :
  user_id u = userId.
Proof.
  unfold UserStore.getUser in Hget.
  assert (Hall : Forall (fun kv : string * User => user_id (snd kv) = fst kv)
                        (fold_left (fun st us => UserStore.addUsers us st)
                                   batches UserStore.initial)).
  { clear Hget.
    assert (H0 : Forall (fun kv : string * User => user_id (snd kv) = fst kv)
                        UserStore.initial) by constructor.
    revert H0. generalize UserStore.initial.
    induction batches as [| us batches IH]; intros st H; simpl; [exact H |].
    apply IH. unfold UserStore.addUsers.
    revert st H. induction us as [| x us IHus]; intros st H; simpl;
      [exact H |].
    apply IHus. now apply smap_set_Forall. }
  exact (smap_get_Forall _ _ _ _ Hall Hget).
Qed.

Lemma userStore_own_id_witness :
  user_id (mkUser "u1" "a@b.c" "Alice" None) = "u1"%string.
Proof.
  apply (userStore_own_id [[mkUser "u1" "x@y.z" "Al" None];
                           [mkUser "u2" "b@b.c" "Bob" None;
                            mkUser "u1" "a@b.c" "Alice" None]]
                          "u1" (mkUser "u1" "a@b.c" "Alice" None)).
  reflexivity.
Defined.

(** ** [BalancesScreen]: the two sections *)


(** ** [simplifyDebts]: the amounts *)

Lemma creditors_of_distinct (h : Heap.t) (refs : list Heap.ref) :
  NoDup (filter (fun r => Qltb cent (balance (h r))) refs) ->
  NoDup (creditors_of h refs).
Proof.
  intros ND. unfold creditors_of.
  eapply Permutation_NoDup; [symmetry; apply sort_desc_perm | exact ND].
Qed.

Lemma debtors_of_at_least_cent (h : Heap.t) (refs : list Heap.ref) :
  Forall at_least_cent (debtors_of h refs).
Proof.
  unfold debtors_of. apply sort_desc_Forall. rewrite Forall_map.
  apply Forall_forall. intros r Hr. apply filter_In in Hr as [_ Hr].
  apply Qltb_lt in Hr. unfold at_least_cent. cbn [balance set_balance]. lra.
Qed.





(** * Properties of the code over binary64 *)

(** ** The maps of the binary64 model *)

Section StrMapFacts.
Context {V : Type}.

Lemma smap_update_keys (k : string) (f : V -> V) (m : StrMap V) :
  map fst (B64.smap_update k f m) = map fst m.
Proof.
  induction m as [| [k' v] rest IH]; simpl; [reflexivity |].
  destruct (String.eqb k' k); simpl; [reflexivity | now rewrite IH].
Qed.

Lemma smap_get_update (k : string) (f : V -> V) (m : StrMap V) (u : string) :
  smap_get (B64.smap_update k f m) u
  = if String.eqb k u then option_map f (smap_get m u) else smap_get m u.
Proof.
  induction m as [| [k' v] rest IH]; simpl.
  - now destruct (String.eqb k u).
  - destruct (String.eqb_spec k' k) as [-> | Hk]; simpl.
    + destruct (String.eqb k u); reflexivity.
    + rewrite IH. destruct (String.eqb_spec k' u) as [-> | Hu];
        [| reflexivity].
      destruct (String.eqb_spec k u); [congruence | reflexivity].
Qed.

Lemma smap_set_keys (x : string) (v : V) (m : StrMap V) :
  map fst (smap_set x v m)
  = if mem x (map fst m) then map fst m else map fst m ++ [x].
Proof.
  induction m as [| [k' v'] rest IH]; simpl; [reflexivity |].
  rewrite (String.eqb_sym x k').
  destruct (String.eqb k' x); simpl; [reflexivity |].
  rewrite IH. unfold mem. now destruct (existsb (String.eqb x) (map fst rest)).
Qed.

Lemma fold_smap_set_keys (f : string -> V) (ids : list string) :
  forall m0,
    map fst (fold_left (fun m u => smap_set u (f u) m) ids m0)
    = map fst m0
      ++ filter (fun y => negb (mem y (map fst m0))) (first_occurrences ids).
Proof.
  induction ids as [| x ids IH]; intros m0; simpl.
  - now rewrite app_nil_r.
  - rewrite IH, smap_set_keys, filter_comp.
    destruct (mem x (map fst m0)) eqn:Hx; simpl.
    + f_equal. apply filter_ext. intros y.
      destruct (String.eqb_spec y x) as [-> | _]; simpl;
        [now rewrite Hx | reflexivity].
    + rewrite <- app_assoc. simpl. do 2 f_equal.
      apply filter_ext. intros y. rewrite mem_app. unfold mem at 2. simpl.
      rewrite orb_false_r.
      now destruct (mem y (map fst m0)), (String.eqb y x).
Qed.

Lemma fold_smap_set_Forall (P : string * V -> Prop) (f : string -> V)
      (ids : list string) :
  (forall u, P (u, f u)) ->
  forall m0, Forall P m0 ->
             Forall P (fold_left (fun m u => smap_set u (f u) m) ids m0).
Proof.
  intros HP. induction ids as [| u ids IH]; intros m0 H0; simpl;
    [assumption |].
  apply IH. now apply smap_set_Forall.
Qed.

Lemma smap_get_In (m : StrMap V) (k : string) (v : V) :
  NoDup (map fst m) -> In (k, v) m -> smap_get m k = Some v.
Proof.
  induction m as [| [k' v'] rest IH]; intros ND Hin; [contradiction |].
  simpl in ND. inversion ND as [| ? ? Hk ND']; subst. simpl.
  destruct Hin as [E | Hin].
  - inversion E; subst. now rewrite String.eqb_refl.
  - destruct (String.eqb_spec k' k) as [-> | _]; [| now apply IH].
    exfalso. apply Hk. change k with (fst (k, v)). now apply in_map.
Qed.

Lemma smap_get_key (m : StrMap V) (k : string) :
  In k (map fst m) -> exists v, smap_get m k = Some v /\ In (k, v) m.
Proof.
  induction m as [| [k' v'] rest IH]; intros Hin; [contradiction |].
  simpl. destruct (String.eqb_spec k' k) as [-> | Hne].
  - exists v'. split; [reflexivity | now left].
  - destruct Hin as [E | Hin]; [simpl in E; congruence |].
    destruct (IH Hin) as (v & Hv & Hv'). exists v.
    split; [exact Hv | now right].
Qed.

End StrMapFacts.

(** ** [calculateGroupBalances]: what an entry accumulates *)

Lemma b64_add_splits_get (u : string) (splits : list B64.ExpenseSplit) :
  forall m,
    smap_get (fold_left B64.add_split splits m) u
    = option_map
        (B64.owe_all (map B64.split_amount
                      (filter (B64.open_split_of u) splits)))
        (smap_get m u).
Proof.
  induction splits as [| s splits IH]; intros m; simpl.
  - now destruct (smap_get m u).
  - rewrite IH. unfold B64.add_split, B64.open_split_of at 2.
    destruct (B64.split_settled s); simpl; [reflexivity |].
    rewrite smap_get_update.
    destruct (String.eqb (B64.split_userId s) u); simpl; [| reflexivity].
    now destruct (smap_get m u).
Qed.

Lemma b64_add_expense_get (u : string) (m : StrMap B64.GroupBalance)
      (e : B64.Expense) :
  smap_get (B64.add_expense m e) u
  = option_map (fun b => B64.account_expense u b e) (smap_get m u).
Proof.
  unfold B64.add_expense, B64.account_expense.
  rewrite b64_add_splits_get, smap_get_update.
  destruct (String.eqb (B64.exp_paidBy e) u); destruct (smap_get m u);
    reflexivity.
Qed.

Lemma b64_fold_add_expense_get (u : string) (es : list B64.Expense) :
  forall m,
    smap_get (fold_left B64.add_expense es m) u
    = option_map (B64.account u es) (smap_get m u).
Proof.
  induction es as [| e es IH]; intros m; simpl.
  - now destruct (smap_get m u).
  - rewrite IH, b64_add_expense_get. now destruct (smap_get m u).
Qed.

Lemma b64_owe_all_fields (l : list float) :
  forall b,
    B64.gb_groupId (B64.owe_all l b) = B64.gb_groupId b
    /\ B64.gb_userId (B64.owe_all l b) = B64.gb_userId b
    /\ B64.gb_displayName (B64.owe_all l b) = B64.gb_displayName b
    /\ B64.totalPaid (B64.owe_all l b) = B64.totalPaid b
    /\ B64.totalOwed (B64.owe_all l b)
       = fold_left PrimFloat.add l (B64.totalOwed b)
    /\ B64.balance (B64.owe_all l b) = B64.balance b.
Proof.
  induction l as [| a l IH]; intros b; simpl; [repeat split |].
  destruct (IH (B64.add_owed a b)) as (H1 & H2 & H3 & H4 & H5 & H6).
  unfold B64.owe_all in *. rewrite H1, H2, H3, H4, H5, H6. repeat split.
Qed.

Lemma b64_account_fields (u : string) (es : list B64.Expense) :
  forall b,
    B64.gb_groupId (B64.account u es b) = B64.gb_groupId b
    /\ B64.gb_userId (B64.account u es b) = B64.gb_userId b
    /\ B64.gb_displayName (B64.account u es b) = B64.gb_displayName b
    /\ B64.totalPaid (B64.account u es b)
       = fold_left PrimFloat.add (B64.paid_amounts u es) (B64.totalPaid b)
    /\ B64.totalOwed (B64.account u es b)
       = fold_left PrimFloat.add (B64.owed_amounts u es) (B64.totalOwed b)
    /\ B64.balance (B64.account u es b) = B64.balance b.
Proof.
  induction es as [| e es IH]; intros b; [repeat split |].
  change (B64.account u (e :: es) b)
    with (B64.account u es (B64.account_expense u b e)).
  destruct (IH (B64.account_expense u b e)) as (H1 & H2 & H3 & H4 & H5 & H6).
  rewrite H1, H2, H3, H4, H5, H6. clear IH H1 H2 H3 H4 H5 H6.
  unfold B64.account_expense.
  destruct (b64_owe_all_fields
              (map B64.split_amount
                   (filter (B64.open_split_of u) (B64.exp_splits e)))
              (if String.eqb (B64.exp_paidBy e) u
               then B64.add_paid (B64.exp_amount e) b else b))
    as (H1 & H2 & H3 & H4 & H5 & H6).
  rewrite H1, H2, H3, H4, H5, H6. clear H1 H2 H3 H4 H5 H6.
  unfold B64.paid_amounts, B64.owed_amounts. simpl.
  rewrite filter_app, map_app, fold_left_app.
  destruct (String.eqb (B64.exp_paidBy e) u); repeat split.
Qed.

Lemma b64_init_balances_keys (es : list B64.Expense) (ids : list string)
      (names : NameMap) :
  map fst (B64.init_balances es ids names) = first_occurrences ids.
Proof.
  unfold B64.init_balances.
  rewrite (fold_smap_set_keys (B64.init_entry es names)). simpl.
  apply filter_all. reflexivity.
Qed.

Lemma b64_fold_add_expense_keys (es : list B64.Expense) :
  forall m, map fst (fold_left B64.add_expense es m) = map fst m.
Proof.
  induction es as [| e es IH]; intros m; simpl; [reflexivity |].
  rewrite IH. unfold B64.add_expense.
  generalize (B64.smap_update (B64.exp_paidBy e)
                              (B64.add_paid (B64.exp_amount e)) m)
             (smap_update_keys (B64.exp_paidBy e)
                               (B64.add_paid (B64.exp_amount e)) m).
  induction (B64.exp_splits e) as [| s splits IHs]; intros m' Hm'; simpl;
    [exact Hm' |].
  apply IHs. rewrite <- Hm'. unfold B64.add_split.
  destruct (B64.split_settled s); [reflexivity | apply smap_update_keys].
Qed.

(** The entries of the map when the expenses have been read: one per
    roster member, in roster order, each the initial entry of its member
    with the member's expenses and splits accounted. *)
Lemma b64_final_map (es : list B64.Expense) (ids : list string)
      (names : NameMap) :
  let F := fold_left B64.add_expense es (B64.init_balances es ids names) in
  map fst F = first_occurrences ids
  /\ Forall (fun kv => snd kv
                       = B64.account (fst kv) es
                                 (B64.init_entry es names (fst kv))) F.
Proof.
  intros F.
  assert (Hkeys : map fst F = first_occurrences ids).
  { unfold F. rewrite b64_fold_add_expense_keys. apply b64_init_balances_keys. }
  split; [exact Hkeys |].
  assert (ND : NoDup (map fst F))
    by (rewrite Hkeys; apply first_occurrences_NoDup).
  apply Forall_forall. intros [k v] Hin. simpl.
  pose proof (smap_get_In F k v ND Hin) as Hget.
  unfold F in Hget. rewrite b64_fold_add_expense_get in Hget.
  assert (Hk : In k (map fst (B64.init_balances es ids names))).
  { rewrite b64_init_balances_keys, <- Hkeys.
    change k with (fst (k, v)). now apply in_map. }
  destruct (smap_get_key _ _ Hk) as (v0 & Hv0 & Hin0).
  rewrite Hv0 in Hget. simpl in Hget. inversion Hget; subst v.
  f_equal.
  assert (H0 : Forall (fun kv => snd kv = B64.init_entry es names (fst kv))
                      (B64.init_balances es ids names)).
  { unfold B64.init_balances.
    apply fold_smap_set_Forall; [reflexivity | constructor]. }
  rewrite Forall_forall in H0. exact (H0 _ Hin0).
Qed.

Lemma b64_entries (es : list B64.Expense) (ids : list string)
      (names : NameMap) :
  let out := B64.calculateGroupBalances es ids names in
  map B64.gb_userId out = first_occurrences ids
  /\ Forall (fun b =>
               B64.gb_displayName b = name_or_unknown names (B64.gb_userId b)
               /\ B64.totalPaid b
                  = B64.fsum (B64.paid_amounts (B64.gb_userId b) es)
               /\ B64.totalOwed b
                  = B64.fsum (B64.owed_amounts (B64.gb_userId b) es)
               /\ B64.balance b = (B64.totalPaid b - B64.totalOwed b)%float)
            out.
Proof.
  intros out. unfold out, B64.calculateGroupBalances.
  destruct (b64_final_map es ids names) as [Hkeys Hall].
  set (F := fold_left B64.add_expense es (B64.init_balances es ids names))
    in *.
  assert (Hall' : Forall (fun kv =>
             B64.gb_userId (snd kv) = fst kv
             /\ B64.gb_displayName (snd kv) = name_or_unknown names (fst kv)
             /\ B64.totalPaid (snd kv) = B64.fsum (B64.paid_amounts (fst kv) es)
             /\ B64.totalOwed (snd kv)
                = B64.fsum (B64.owed_amounts (fst kv) es)) F).
  { eapply Forall_impl; [| exact Hall]. intros [k v] Hv. simpl in *.
    destruct (b64_account_fields k es (B64.init_entry es names k))
      as (_ & H2 & H3 & H4 & H5 & _).
    rewrite Hv. repeat split; assumption. }
  clear Hall. split.
  - rewrite <- Hkeys. rewrite !map_map.
    clear Hkeys. induction Hall' as [| [k v] rest (H1 & _) _ IH]; simpl;
      [reflexivity |].
    f_equal; [exact H1 | exact IH].
  - rewrite !Forall_map. eapply Forall_impl; [| exact Hall'].
    intros [k v] (H1 & H2 & H3 & H4). simpl in *.
    rewrite H1. repeat split; assumption.
Qed.

(** ** [calculateGroupBalances]: every amount is counted once *)

Lemma mem_In_iff (k : string) (l : list string) : mem k l = true <-> In k l.
Proof.
  unfold mem. rewrite existsb_exists. split.
  - intros (x & Hx & E). apply String.eqb_eq in E. now subst.
  - intros H. exists k. split; [exact H | apply String.eqb_refl].
Qed.

Lemma mem_first (k : string) (l : list string) :
  mem k (first_occurrences l) = mem k l.
Proof.
  apply eq_true_iff_eq. rewrite !mem_In_iff. apply first_occurrences_In.
Qed.

Section CountedOnce.
Context {B : Type}.

Lemma flat_map_skip (k : string) (y : B) (g : string -> list B)
      (keys : list string) :
  ~ In k keys ->
  flat_map (fun u => if String.eqb k u then y :: g u else g u) keys
  = flat_map g keys.
Proof.
  induction keys as [| u keys IH]; intros Hk; simpl; [reflexivity |].
  destruct (String.eqb_spec k u) as [-> | _].
  - exfalso. apply Hk. now left.
  - rewrite IH; [reflexivity |]. intros H. apply Hk. now right.
Qed.

Lemma flat_map_insert (k : string) (y : B) (g : string -> list B)
      (keys : list string) :
  NoDup keys -> In k keys ->
  Permutation
    (flat_map (fun u => if String.eqb k u then y :: g u else g u) keys)
    (y :: flat_map g keys).
Proof.
  induction keys as [| u keys IH]; intros ND Hk; [contradiction |].
  inversion ND as [| ? ? Hu ND']; subst. simpl.
  destruct (String.eqb_spec k u) as [-> | Hne].
  - rewrite flat_map_skip by exact Hu. reflexivity.
  - destruct Hk as [E | Hk]; [congruence |].
    etransitivity; [apply Permutation_app_head, IH; assumption |].
    symmetry. apply Permutation_middle.
Qed.

Lemma counted_once {A : Type} (key : A -> string) (p : A -> bool)
      (f : A -> B) (keys : list string) (l : list A) :
  NoDup keys ->
  Permutation
    (flat_map (fun u => map f (filter (fun x => p x && String.eqb (key x) u) l))
              keys)
    (map f (filter (fun x => p x && mem (key x) keys) l)).
Proof.
  intros ND. induction l as [| x l IH].
  - simpl. clear ND.
    induction keys as [| u keys IHk]; simpl; [apply perm_nil | exact IHk].
  - cbn [filter]. destruct (p x) eqn:Hp; cbn [andb].
    + rewrite (flat_map_ext _
        (fun u => if String.eqb (key x) u
                  then f x :: map f (filter (fun x0 => p x0
                                                 && String.eqb (key x0) u) l)
                  else map f (filter (fun x0 => p x0
                                          && String.eqb (key x0) u) l)))
        by (intros u; now destruct (String.eqb (key x) u)).
      destruct (mem (key x) keys) eqn:Hm.
      * apply mem_In_iff in Hm.
        etransitivity; [apply flat_map_insert; assumption |].
        cbn [map]. now apply perm_skip.
      * rewrite flat_map_skip; [exact IH |].
        intros H. apply mem_In_iff in H. congruence.
    + exact IH.
Qed.

End CountedOnce.

Lemma flat_map_of_map {A B C : Type} (g : A -> B) (f : B -> list C)
      (l : list A) :
  flat_map f (map g l) = flat_map (fun a => f (g a)) l.
Proof. induction l as [| a l IH]; simpl; [reflexivity | now rewrite IH]. Qed.

Lemma paid_counted_once (es : list B64.Expense) (ids : list string)
      (names : NameMap) :
  Permutation
    (flat_map (fun b => B64.paid_amounts (B64.gb_userId b) es)
              (B64.calculateGroupBalances es ids names))
    (map B64.exp_amount
         (filter (fun e => mem (B64.exp_paidBy e) ids) es)).
Proof.
  rewrite <- (flat_map_of_map B64.gb_userId
                              (fun u => B64.paid_amounts u es)).
  destruct (b64_entries es ids names) as [-> _].
  unfold B64.paid_amounts.
  rewrite (filter_ext (fun e => mem (B64.exp_paidBy e) ids)
                      (fun e => true && mem (B64.exp_paidBy e)
                                            (first_occurrences ids)))
    by (intros e; now rewrite mem_first).
  apply (counted_once B64.exp_paidBy (fun _ => true)).
  apply first_occurrences_NoDup.
Qed.

Lemma owed_counted_once (es : list B64.Expense) (ids : list string)
      (names : NameMap) :
  Permutation
    (flat_map (fun b => B64.owed_amounts (B64.gb_userId b) es)
              (B64.calculateGroupBalances es ids names))
    (map B64.split_amount
         (filter (fun s => negb (B64.split_settled s)
                           && mem (B64.split_userId s) ids)
                 (flat_map B64.exp_splits es))).
Proof.
  rewrite <- (flat_map_of_map B64.gb_userId
                              (fun u => B64.owed_amounts u es)).
  destruct (b64_entries es ids names) as [-> _].
  unfold B64.owed_amounts, B64.open_split_of.
  rewrite (filter_ext (fun s => negb (B64.split_settled s)
                                && mem (B64.split_userId s) ids)
                      (fun s => negb (B64.split_settled s)
                                && mem (B64.split_userId s)
                                       (first_occurrences ids)))
    by (intros s; now rewrite mem_first).
  apply (counted_once B64.split_userId
                      (fun s => negb (B64.split_settled s))).
  apply first_occurrences_NoDup.
Qed.

(** C2, as stated, fails on binary64.  With B paying 0.1 and then A paying
    0.2 and 0.3, the entries hold 0.5 and 0.1, which add up to 0.6, while
    the amounts of the three expenses add up to 0.6000000000000001: the two
    sides add the same numbers grouped differently.  Read on the exact
    values of the doubles the claim fails as well: with A paying 0.1 and
    0.2, the one [totalPaid] is the double 0.30000000000000004, which is
    not the exact sum of the doubles 0.1 and 0.2. *)
Lemma conservation_fails_on_binary64 :
  (let out := B64.calculateGroupBalances B64.expenses_three
                                         ["A"; "B"]%string [] in
   map B64.totalPaid out = [0.5; 0.1]%float
   /\ B64.fsum (map B64.totalPaid out) = 0.6%float
   /\ B64.fsum (map B64.exp_amount
                    (filter (fun e => mem (B64.exp_paidBy e)
                                          ["A"; "B"]%string)
                            B64.expenses_three))
      = 0.6000000000000001%float
   /\ (0.6 =? 0.6000000000000001)%float = false)
  /\ (let out := B64.calculateGroupBalances B64.expenses_two
                                            ["A"]%string [] in
      map B64.totalPaid out = [0.30000000000000004]%float
      /\ ~ (B64.exact 0.30000000000000004 == B64.exact 0.1 + B64.exact 0.2)).
Proof.
  split; [repeat split; vm_compute; reflexivity |].
  split; [vm_compute; reflexivity |].
  vm_compute. discriminate.
Qed.

(** C2 (amended): in the result of [calculateGroupBalances], the
    [totalPaid] of an entry is the floating-point sum, in expense order, of
    the amounts of the expenses its member paid; its [totalOwed] is the
    floating-point sum, in expense and split order, of the amounts of its
    member's unsettled splits; and its [balance] is the floating-point
    difference of the two.  Over all entries, the amounts that are summed
    into a [totalPaid] are the amounts of the expenses whose payer is a
    roster member, each of them once, and the amounts that are summed into
    a [totalOwed] are the amounts of the unsettled splits whose [userId] is
    a roster member, each of them once. *)
Theorem calculateGroupBalances_accounts (expenses : list B64.Expense)
        (memberIds : list string) (memberNames : NameMap) :
  let out := B64.calculateGroupBalances expenses memberIds memberNames in
  Forall (fun b =>
            B64.totalPaid b
            = B64.fsum (B64.paid_amounts (B64.gb_userId b) expenses)
            /\ B64.totalOwed b
               = B64.fsum (B64.owed_amounts (B64.gb_userId b) expenses)
            /\ B64.balance b = (B64.totalPaid b - B64.totalOwed b)%float)
         out
  /\ Permutation
       (flat_map (fun b => B64.paid_amounts (B64.gb_userId b) expenses) out)
       (map B64.exp_amount
            (filter (fun e => mem (B64.exp_paidBy e) memberIds) expenses))
  /\ Permutation
       (flat_map (fun b => B64.owed_amounts (B64.gb_userId b) expenses) out)
       (map B64.split_amount
            (filter (fun s => negb (B64.split_settled s)
                              && mem (B64.split_userId s) memberIds)
                    (flat_map B64.exp_splits expenses))).
Proof.
  intros out. split; [| split].
  - destruct (b64_entries expenses memberIds memberNames) as [_ H].
    eapply Forall_impl; [| exact H]. intros b (_ & H1 & H2 & H3).
    repeat split; assumption.
  - apply paid_counted_once.
  - apply owed_counted_once.
Qed.

(** ** [calculateGroupBalances]: the balances need not add up to zero *)




(** ** [validateCustomSplits] *)

Lemma splits_total_fsum (splits : list B64.ExpenseSplit) :
  B64.splits_total splits = B64.fsum (map B64.split_amount splits).
Proof.
  unfold B64.splits_total, B64.fsum. generalize 0%float.
  induction splits as [| s splits IH]; intros acc; simpl;
    [reflexivity | apply IH].
Qed.

(** C7, as stated, fails on binary64, whether "the sum" and "0.01" are read
    as the decimal numbers or as the exact values of the doubles.  For the
    amount 0.15 and the splits 0.02 and 0.12 the exact values of the doubles
    differ by less than the value of the double 0.01 (and the decimals by
    0.01 exactly), and the result is false: the computed sum
    0.13999999999999999 is 0.010000000000000009 away from 0.15.  For the
    amount 0.06 and the one split 0.05 the decimals differ by exactly 0.01,
    which is not less than 0.01, and the result is true. *)
Lemma validateCustomSplits_not_exact :
  (B64.validateCustomSplits 0.15 [B64.custom 0.02; B64.custom 0.12] = false
   /\ Qabs (B64.exact 0.02 + B64.exact 0.12 - B64.exact 0.15)
      < B64.exact 0.01
   /\ (abs (0.02 + 0.12 - 0.15) =? 0.010000000000000009)%float = true)
  /\ (B64.validateCustomSplits 0.06 [B64.custom 0.05] = true
      /\ ~ Qabs ((5 # 100) - (6 # 100)) < 1 # 100).
Proof.
  repeat split; try (vm_compute; reflexivity).
  intros H. vm_compute in H. discriminate H.
Qed.

(** C7 (amended): [validateCustomSplits(amount, splits)] returns true if
    and only if the floating-point value [Math.abs(total - amount)] is less
    than the double 0.01, where [total] is the floating-point sum of the
    split amounts from left to right, starting from 0.  In particular
    [validateCustomSplits(100, splitEqually(100, [m1, m2, m3], names))]
    returns false: the three splits are 33.33 each, their computed sum is
    99.99 and [Math.abs(99.99 - 100)] is 0.010000000000005116. *)
Theorem validateCustomSplits_iff (amt : float)
        (splits : list B64.ExpenseSplit) (m1 m2 m3 : string)
        (names : NameMap) :
  (B64.validateCustomSplits amt splits = true
   <-> (abs (B64.fsum (map B64.split_amount splits) - amt) <? 0.01)%float
       = true)
  /\ (let entries := B64.splitEqually 100 [m1; m2; m3] names in
      map B64.split_amount entries = [33.33; 33.33; 33.33]%float
      /\ B64.fsum (map B64.split_amount entries) = 99.99%float
      /\ abs (99.99 - 100)%float = 0.010000000000005116%float
      /\ B64.validateCustomSplits 100 entries = false).
Proof.
  split.
  - unfold B64.validateCustomSplits. rewrite splits_total_fsum. reflexivity.
  - repeat split; vm_compute; reflexivity.
Qed.

(** ** [splitEqually] *)

Lemma nearest_cent (y : Q) :
  0 <= y ->
  Qabs (inject_Z (Qfloor (y * 100 + (1 # 2))) / 100 - y) <= 1 # 200.
Proof.
  intros _.
  pose proof (Qfloor_le (y * 100 + (1 # 2))) as Hlo.
  pose proof (Qlt_floor (y * 100 + (1 # 2))) as Hhi.
  rewrite inject_Z_plus in Hhi.
  set (r := Qfloor (y * 100 + (1 # 2))) in *.
  apply Qabs_Qle_condition. unfold Qdiv.
  change (/ 100) with (1 # 100). change (inject_Z 1) with 1 in Hhi.
  split; lra.
Qed.



(** ** [simplifyDebts]: what a debtor pays *)

Lemma b64_insert_desc_perm {A : Type} (key : A -> float) (x : A)
      (l : list A) :
  Permutation (B64.insert_desc key x l) (x :: l).
Proof.
  induction l as [| y l IH]; simpl; [reflexivity |].
  destruct (key x - key y <? 0)%float; [| reflexivity].
  etransitivity; [apply perm_skip, IH | apply perm_swap].
Qed.

Lemma b64_sort_desc_perm {A : Type} (key : A -> float) (l : list A) :
  Permutation (B64.sort_desc key l) l.
Proof.
  induction l as [| x l IH]; simpl; [reflexivity |].
  etransitivity; [apply b64_insert_desc_perm | now apply perm_skip].
Qed.

Lemma debtor_entry_In (ds : list B64.GroupBalance) (d : B64.GroupBalance) :
  NoDup (map B64.gb_userId ds) -> In d ds ->
  B64.debtor_entry (B64.gb_userId d) ds = Some d.
Proof.
  induction ds as [| x ds IH]; intros ND Hin; [contradiction |].
  inversion ND as [| ? ? Hx ND']; subst. unfold B64.debtor_entry. simpl.
  destruct Hin as [-> | Hin]; [now rewrite String.eqb_refl |].
  destruct (String.eqb_spec (B64.gb_userId x) (B64.gb_userId d)) as [E | _].
  - exfalso. apply Hx. rewrite E. now apply in_map.
  - now apply IH.
Qed.

Lemma debtor_entry_notin (u : string) (ds : list B64.GroupBalance) :
  ~ In u (map B64.gb_userId ds) -> B64.debtor_entry u ds = None.
Proof.
  induction ds as [| x ds IH]; intros Hu; [reflexivity |].
  unfold B64.debtor_entry. simpl.
  destruct (String.eqb_spec (B64.gb_userId x) u) as [E | _].
  - exfalso. apply Hu. now left.
  - apply IH. intros H. apply Hu. now right.
Qed.

Lemma amounts_of_other (u : string) (t : B64.Balance)
      (txs : list B64.Balance) :
  B64.bal_userId t <> u -> B64.amounts_of u (t :: txs) = B64.amounts_of u txs.
Proof.
  intros Hne. unfold B64.amounts_of. simpl.
  destruct (String.eqb_spec (B64.bal_userId t) u); [contradiction | reflexivity].
Qed.

Lemma amounts_of_own (t : B64.Balance) (txs : list B64.Balance) :
  B64.amounts_of (B64.bal_userId t) (t :: txs)
  = B64.amount t :: B64.amounts_of (B64.bal_userId t) txs.
Proof. unfold B64.amounts_of. simpl. now rewrite String.eqb_refl. Qed.

Lemma In_tl {A : Type} (x : A) (l : list A) : In x (tl l) -> In x l.
Proof. destruct l; simpl; auto. Qed.

(** The loop has ended. *)
Lemma loop_account_done (h : B64.Heap) (cs : list nat)
      (ds : list B64.GroupBalance) (txs : list B64.Balance) :
  NoDup (map B64.gb_userId ds) -> cs = [] \/ ds = [] ->
  let s := B64.mkLoopState txs h cs ds in
  exists more,
    B64.transactions s = txs ++ more
    /\ (forall u, ~ In u (map B64.gb_userId ds) -> B64.amounts_of u more = [])
    /\ (forall u, In u (map B64.gb_userId (B64.debtors_rest s)) ->
                  In u (map B64.gb_userId ds))
    /\ (forall d, In d ds ->
                  match B64.debtor_entry (B64.gb_userId d)
                                         (B64.debtors_rest s) with
                  | Some d' =>
                      B64.balance d'
                      = B64.after_payments
                          (B64.balance d)
                          (B64.amounts_of (B64.gb_userId d) more)
                  | None =>
                      (B64.after_payments
                         (B64.balance d)
                         (B64.amounts_of (B64.gb_userId d) more)
                       <? B64.cent)%float = true
                  end)
    /\ (forall d, In d (tl (B64.debtors_rest s)) ->
                  In d (tl ds)
                  /\ B64.amounts_of (B64.gb_userId d) more = [])
    /\ (B64.creditors_rest s = [] \/ B64.debtors_rest s = []).
Proof.
  intros ND Hend s. exists []. cbn [s B64.transactions B64.debtors_rest
                                      B64.creditors_rest].
  split; [now rewrite app_nil_r |]. split; [reflexivity |].
  split; [auto |]. split; [| split; [auto | exact Hend]].
  intros d Hd. now rewrite (debtor_entry_In ds d ND Hd).
Qed.

Lemma loop_account (fuel : nat) :
  forall h cs ds txs s,
    NoDup (map B64.gb_userId ds) ->
    B64.settle_loop fuel h cs ds txs = Some s ->
    exists more,
      B64.transactions s = txs ++ more
      /\ (forall u, ~ In u (map B64.gb_userId ds) ->
                    B64.amounts_of u more = [])
      /\ (forall u, In u (map B64.gb_userId (B64.debtors_rest s)) ->
                    In u (map B64.gb_userId ds))
      /\ (forall d, In d ds ->
                    match B64.debtor_entry (B64.gb_userId d)
                                           (B64.debtors_rest s) with
                    | Some d' =>
                        B64.balance d'
                        = B64.after_payments
                            (B64.balance d)
                            (B64.amounts_of (B64.gb_userId d) more)
                    | None =>
                        (B64.after_payments
                           (B64.balance d)
                           (B64.amounts_of (B64.gb_userId d) more)
                         <? B64.cent)%float = true
                    end)
      /\ (forall d, In d (tl (B64.debtors_rest s)) ->
                    In d (tl ds)
                    /\ B64.amounts_of (B64.gb_userId d) more = [])
      /\ (B64.creditors_rest s = [] \/ B64.debtors_rest s = []).
Proof.
  induction fuel as [| fuel IH]; intros h cs ds txs s ND Hrun.
  - destruct cs as [| c cs'], ds as [| d0 ds']; simpl in Hrun;
      try discriminate; inversion Hrun; subst s;
        apply loop_account_done; auto.
  - destruct cs as [| c cs'].
    { destruct ds; simpl in Hrun; inversion Hrun; subst s;
        apply loop_account_done; auto. }
    destruct ds as [| d0 ds'].
    { simpl in Hrun; inversion Hrun; subst s.
      apply loop_account_done; auto. }
    pose (a := B64.fmin (B64.balance (h c)) (B64.balance d0)).
    pose (tx := B64.owes d0 (h c) a).
    pose (h' := B64.sub_balance h c a).
    pose (d0' := B64.set_balance d0 (B64.balance d0 - a)%float).
    pose (cs1 := if (B64.balance (h' c) <? B64.cent)%float
                 then cs' else c :: cs').
    pose (ds1 := if (B64.balance d0' <? B64.cent)%float
                 then ds' else d0' :: ds').
    change (B64.settle_loop fuel h' cs1 ds1 (txs ++ [tx]) = Some s) in Hrun.
    simpl in ND. inversion ND as [| ? ? Hfresh ND']; subst.
    assert (F1 : NoDup (map B64.gb_userId ds1)).
    { unfold ds1. destruct (B64.balance d0' <? B64.cent)%float;
        [assumption | now constructor]. }
    assert (F2 : forall u, In u (map B64.gb_userId ds1) ->
                           In u (map B64.gb_userId (d0 :: ds'))).
    { unfold ds1. intros u.
      destruct (B64.balance d0' <? B64.cent)%float; simpl; auto. }
    assert (F3 : forall d, In d (tl ds1) -> In d ds').
    { unfold ds1. intros d.
      destruct (B64.balance d0' <? B64.cent)%float; simpl; auto.
      apply In_tl. }
    assert (F4 : forall d, In d ds' -> In d ds1).
    { unfold ds1. intros d.
      destruct (B64.balance d0' <? B64.cent)%float; simpl; auto. }
    assert (F5 : In d0' ds1
                 \/ (~ In (B64.gb_userId d0) (map B64.gb_userId ds1)
                     /\ (B64.balance d0 - a <? B64.cent)%float = true)).
    { unfold ds1.
      destruct (B64.balance d0' <? B64.cent)%float eqn:Hdrop;
        [right | left; now left].
      split; assumption. }
    clearbody ds1 cs1.
    destruct (IH _ _ _ _ _ F1 Hrun)
      as (more & Htx & Hnone & Hsub & Hacc & Htl & Hend).
    assert (Hother : forall d, In d ds' ->
                               B64.amounts_of (B64.gb_userId d) (tx :: more)
                               = B64.amounts_of (B64.gb_userId d) more).
    { intros d Hd. apply amounts_of_other. cbn [tx B64.owes B64.bal_userId].
      intros E. apply Hfresh. rewrite E. now apply in_map. }
    exists (tx :: more). split; [| split; [| split; [| split; [| split]]]].
    + rewrite Htx, <- app_assoc. reflexivity.
    + intros u Hu. rewrite amounts_of_other.
      * apply Hnone. intros H. apply Hu. now apply F2.
      * cbn [tx B64.owes B64.bal_userId]. intros E. apply Hu. now left.
    + intros u Hu. apply F2. now apply Hsub.
    + intros d [<- | Hd].
      * change (B64.gb_userId d0) with (B64.bal_userId tx).
        rewrite amounts_of_own.
        change (B64.bal_userId tx) with (B64.gb_userId d0').
        change (B64.after_payments (B64.balance d0)
                  (B64.amount tx :: B64.amounts_of (B64.gb_userId d0') more))
          with (B64.after_payments (B64.balance d0')
                  (B64.amounts_of (B64.gb_userId d0') more)).
        destruct F5 as [Hkept | [Hgone Hlt]]; [now apply Hacc |].
        change (B64.gb_userId d0') with (B64.gb_userId d0).
        rewrite debtor_entry_notin
          by (intros H; apply Hgone; now apply Hsub).
        rewrite (Hnone _ Hgone). exact Hlt.
      * rewrite (Hother d Hd). apply Hacc. now apply F4.
    + intros d Hd. destruct (Htl d Hd) as [Hd1 Hd2].
      apply F3 in Hd1. split; [exact Hd1 |].
      now rewrite (Hother d Hd1).
    + exact Hend.
Qed.




(** ** [calculateGroupBalances]: the entries in closed form *)

Lemma calculateGroupBalances_closed (es : list B64.Expense)
      (ids : list string) (names : NameMap) :
  B64.calculateGroupBalances es ids names
  = map (B64.entry_of es names) (first_occurrences ids).
Proof.
  unfold B64.calculateGroupBalances.
  destruct (b64_final_map es ids names) as [Hkeys Hall].
  rewrite <- Hkeys, !map_map. clear Hkeys.
  induction Hall as [| [k v] rest Hv _ IH]; simpl; [reflexivity |].
  f_equal; [| exact IH]. simpl in Hv. subst v.
  destruct (b64_account_fields k es (B64.init_entry es names k))
    as (H1 & H2 & H3 & H4 & H5 & _).
  unfold B64.net, B64.set_balance, B64.entry_of.
  rewrite H1, H2, H3, H4, H5. reflexivity.
Qed.

Lemma paid_amounts_app (u : string) (es1 es2 : list B64.Expense) :
  B64.paid_amounts u (es1 ++ es2)
  = B64.paid_amounts u es1 ++ B64.paid_amounts u es2.
Proof. unfold B64.paid_amounts. now rewrite filter_app, map_app. Qed.

Lemma owed_amounts_app (u : string) (es1 es2 : list B64.Expense) :
  B64.owed_amounts u (es1 ++ es2)
  = B64.owed_amounts u es1 ++ B64.owed_amounts u es2.
Proof.
  unfold B64.owed_amounts. now rewrite flat_map_app, filter_app, map_app.
Qed.

Lemma first_groupId_middle (es1 es2 : list B64.Expense) (e e' : B64.Expense) :
  B64.exp_groupId e' = B64.exp_groupId e ->
  B64.first_groupId (es1 ++ e' :: es2) = B64.first_groupId (es1 ++ e :: es2).
Proof. intros H. destruct es1; simpl; [exact H | reflexivity]. Qed.

(** X7: marking one split of one expense as settled changes the balances
    exactly as deleting that split does; it leaves every [totalPaid] as it
    was, and it leaves the whole entry of every member other than the
    split's as it was. *)
Theorem settling_a_split (es1 es2 : list B64.Expense) (e : B64.Expense)
        (s1 s2 : list B64.ExpenseSplit) (s : B64.ExpenseSplit)
        (memberIds : list string) (names : NameMap) :
  let settled := B64.with_splits e (s1 ++ B64.settle s :: s2) in
  let deleted := B64.with_splits e (s1 ++ s2) in
  let open := B64.with_splits e (s1 ++ s :: s2) in
  let before :=
    B64.calculateGroupBalances (es1 ++ open :: es2) memberIds names in
  let after :=
    B64.calculateGroupBalances (es1 ++ settled :: es2) memberIds names in
  after = B64.calculateGroupBalances (es1 ++ deleted :: es2) memberIds names
  /\ Forall2 (fun b b' =>
                B64.gb_userId b' = B64.gb_userId b
                /\ B64.totalPaid b' = B64.totalPaid b
                /\ (B64.gb_userId b <> B64.split_userId s -> b' = b))
             before after.
Proof.
  intros settled deleted open before after.
  unfold before, after, settled, deleted, open.
  clear before after settled deleted open.
  rewrite !calculateGroupBalances_closed.
  assert (Hpaid : forall u l1 l2,
             B64.paid_amounts u (es1 ++ B64.with_splits e l1 :: es2)
             = B64.paid_amounts u (es1 ++ B64.with_splits e l2 :: es2)).
  { intros u l1 l2. rewrite !paid_amounts_app. f_equal.
    unfold B64.paid_amounts.
    cbn [filter B64.exp_paidBy B64.with_splits].
    destruct (String.eqb (B64.exp_paidBy e) u); reflexivity. }
  assert (Howed : forall u l1 l2,
             filter (B64.open_split_of u) l1 = filter (B64.open_split_of u) l2 ->
             B64.owed_amounts u (es1 ++ B64.with_splits e l1 :: es2)
             = B64.owed_amounts u (es1 ++ B64.with_splits e l2 :: es2)).
  { intros u l1 l2 H. rewrite !owed_amounts_app. f_equal.
    unfold B64.owed_amounts. cbn [flat_map B64.exp_splits B64.with_splits].
    rewrite !filter_app, H. reflexivity. }
  assert (Hgroup : forall l1 l2,
             B64.first_groupId (es1 ++ B64.with_splits e l1 :: es2)
             = B64.first_groupId (es1 ++ B64.with_splits e l2 :: es2))
    by (intros l1 l2; now apply first_groupId_middle).
  split.
  - apply map_ext. intros u. unfold B64.entry_of.
    rewrite (Hgroup (s1 ++ B64.settle s :: s2) (s1 ++ s2)).
    rewrite (Hpaid u (s1 ++ B64.settle s :: s2) (s1 ++ s2)).
    rewrite (Howed u (s1 ++ B64.settle s :: s2) (s1 ++ s2)); [reflexivity |].
    rewrite !filter_app. reflexivity.
  - induction (first_occurrences memberIds) as [| u l IH]; cbn [map];
      constructor; [| exact IH].
    unfold B64.entry_of. cbn [B64.gb_userId B64.totalPaid].
    split; [reflexivity |].
    rewrite (Hpaid u (s1 ++ B64.settle s :: s2) (s1 ++ s :: s2)).
    split; [reflexivity |]. intros Hu.
    rewrite (Hgroup (s1 ++ B64.settle s :: s2) (s1 ++ s :: s2)).
    rewrite (Howed u (s1 ++ B64.settle s :: s2) (s1 ++ s :: s2));
      [reflexivity |].
    rewrite !filter_app. f_equal. cbn [filter].
    replace (B64.open_split_of u (B64.settle s)) with false
      by (unfold B64.open_split_of; reflexivity).
    replace (B64.open_split_of u s) with false; [reflexivity |].
    unfold B64.open_split_of.
    destruct (String.eqb_spec (B64.split_userId s) u) as [E | _];
      [now subst u |].
    now rewrite andb_false_r.
Qed.

(** ** [BalancesScreen.getTotalBalance] on the computed balances *)

(** X10: on the balances computed by [calculateGroupBalances], the total
    that [BalancesScreen] shows for the signed-in user is the
    floating-point difference between the floating-point sum of what the
    user paid and that of the user's unsettled splits, with 0 in place of
    NaN; it is 0 when the user is not in the roster and when nobody is
    signed in. *)
Theorem getTotalBalance_computed (expenses : list B64.Expense)
        (memberIds : list string) (names : NameMap) (u : string) :
  let balances := B64.calculateGroupBalances expenses memberIds names in
  B64.getTotalBalance balances (Some u)
  = (if mem u memberIds
     then B64.or_zero (B64.fsum (B64.paid_amounts u expenses)
                       - B64.fsum (B64.owed_amounts u expenses))%float
     else 0%float)
  /\ B64.getTotalBalance balances None = 0%float.
Proof.
  intros balances. unfold balances.
  rewrite calculateGroupBalances_closed, <- (mem_first u memberIds).
  unfold B64.getTotalBalance. split.
  - induction (first_occurrences memberIds) as [| v l IH];
      [reflexivity |].
    cbn [map find B64.is_user B64.entry_of B64.gb_userId].
    unfold mem. cbn [existsb]. rewrite (String.eqb_sym u v).
    destruct (String.eqb_spec v u) as [-> | _]; [reflexivity | exact IH].
  - induction (first_occurrences memberIds) as [| v l IH];
      [reflexivity | exact IH].
Qed.

(** ** [handleSubmit]: what the checks let through *)

(** X13: when the checks of [handleSubmit] let a submission through, the
    trimmed description is not empty, the parsed amount is not NaN and not
    less than or equal to 0, at least one member is selected, and the splits
    handed to the expenses service are those of [splitEqually]: one per
    selected member, in order, unsettled, all of the same amount.  The
    checks do not ask for a finite amount: [Infinity] passes, and every
    split is then [Infinity]. *)
Theorem handleSubmit_checks_splits (description : string) (numAmount : float)
        (selectedMembers : list string) (memberNames : NameMap) (a : float)
        (splits : list B64.ExpenseSplit) :
  B64.handleSubmit_checks description numAmount selectedMembers memberNames
  = B64.Splits a splits ->
  (description <> EmptyString
   /\ a = numAmount
   /\ is_nan a = false
   /\ (a <=? 0)%float = false
   /\ selectedMembers <> []
   /\ splits = B64.splitEqually a selectedMembers memberNames
   /\ map B64.split_userId splits = selectedMembers
   /\ Forall (fun s =>
                B64.split_amount s
                = B64.toFixed2
                    (a / B64.of_nat (List.length selectedMembers))%float
                /\ B64.split_settled s = false)
             splits)
  /\ B64.handleSubmit_checks "Dinner" infinity ["u"]%string memberNames
     = B64.Splits infinity
                  [B64.mkSplit "u" (name_or_unknown memberNames "u")
                               infinity false].
Proof.
  intros H. split; [| reflexivity].
  unfold B64.handleSubmit_checks in H.
  destruct description as [| c d]; [discriminate |].
  destruct (is_nan numAmount) eqn:Hnan; [discriminate |].
  destruct (numAmount <=? 0)%float eqn:Hle; [discriminate |].
  cbn [orb] in H.
  destruct selectedMembers as [| m ms]; [discriminate |].
  cbn [List.length Nat.eqb] in H. inversion H; subst a splits. clear H.
  split; [discriminate |]. split; [reflexivity |].
  split; [exact Hnan |]. split; [exact Hle |]. split; [discriminate |].
  split; [reflexivity |].
  unfold B64.splitEqually. split; [rewrite map_map; apply map_id |].
  rewrite Forall_map. apply Forall_forall. intros u _. split; reflexivity.
Qed.

Lemma handleSubmit_checks_splits_witness :
  exists splits,
    B64.handleSubmit_checks "Dinner" 100 B64.three_members []
    = B64.Splits 100 splits
    /\ map B64.split_amount splits = [33.33; 33.33; 33.33]%float
    /\ (("Dinner"%string <> EmptyString
         /\ 100%float = 100%float
         /\ is_nan 100 = false
         /\ (100 <=? 0)%float = false
         /\ B64.three_members <> []
         /\ splits = B64.splitEqually 100 B64.three_members []
         /\ map B64.split_userId splits = B64.three_members
         /\ Forall (fun s =>
                      B64.split_amount s
                      = B64.toFixed2
                          (100 / B64.of_nat (List.length B64.three_members))
                          %float
                      /\ B64.split_settled s = false)
                   splits)
        /\ B64.handleSubmit_checks "Dinner" infinity ["u"]%string []
           = B64.Splits infinity
                        [B64.mkSplit "u" (name_or_unknown [] "u")
                                     infinity false]).
Proof.
  eexists. split; [vm_compute; reflexivity |].
  split; [vm_compute; reflexivity |].
  apply (handleSubmit_checks_splits "Dinner" 100 B64.three_members []).
  vm_compute. reflexivity.
Defined.
